(** * dejavu-llvm: the linker's source synthesis and the runtime scope model

    A shallow embedding of [linker.cc] (library, script and object
    compilation, argument rendering, linking) and of [runtime/scope.cc]
    (variable lookup and array access), with the properties the
    specification states about them. *)

From stdpp Require Import gmap strings list pretty.
From Stdlib Require Import Ascii SpecFloat.

Open Scope Z_scope.

(** ** Outcomes

    A C++ computation either finishes with a value, runs for ever (the
    model's fuel is used up) or leaves the language's defined behaviour
    (an array read out of range, a null scope, a cast out of range). *)

Inductive outcome (A : Type) : Type :=
  | Done (a : A)
  | Diverges
  | Undefined.
Arguments Done {A} a.
Arguments Diverges {A}.
Arguments Undefined {A}.

#[global] Instance outcome_ret : MRet outcome := λ A a, Done a.
#[global] Instance outcome_bind : MBind outcome := λ A B f m,
  match m with
  | Done a => f a
  | Diverges => Diverges
  | Undefined => Undefined
  end.

Definition of_option {A} (o : option A) : outcome A :=
  match o with
  | Some a => Done a
  | None => Undefined
  end.

(** ** Text

    A [char*] or [std::string] is the [string] of its characters; what
    [ostream << int] prints is stdpp's decimal [pretty]. *)

Module Text.

Definition dquote : ascii := "034"%char.
Definition squote : ascii := "'"%char.
Definition underscore : ascii := "_"%char.
Definition nl : string := String "010"%char "".

(** [s[0]] of a C string: the terminator when the string is empty. *)
Definition first_char (s : string) : ascii :=
  match s with
  | EmptyString => "000"%char
  | String c _ => c
  end.

(** [std::string::find(char)]: index of the first occurrence, [npos]
    ([None]) when there is none. *)
Fixpoint find (c : ascii) (s : string) : option nat :=
  match s with
  | EmptyString => None
  | String a rest =>
      if decide (a = c) then Some 0%nat else S <$> find c rest
  end.

Fixpoint take (n : nat) (s : string) : string :=
  match n, s with
  | S n', String a rest => String a (take n' rest)
  | _, _ => EmptyString
  end.

Fixpoint drop (n : nat) (s : string) : string :=
  match n, s with
  | S n', String _ rest => drop n' rest
  | _, _ => s
  end.

(** [std::string::replace(pos, len, str)]. *)
Definition replace (pos len : nat) (str s : string) : string :=
  take pos s +:+ str +:+ drop (pos + len) s.

(** The characters of a string, as a predicate on all of them. *)
Fixpoint all_chars (P : ascii → bool) (s : string) : bool :=
  match s with
  | EmptyString => true
  | String a rest => P a && all_chars P rest
  end.

Definition is_not (c : ascii) (a : ascii) : bool := bool_decide (a ≠ c).

(** [ostream << bool] without [boolalpha]. *)
Definition show_bool (b : bool) : string := if b then "1" else "0".

(** Joining rendered pieces with a separator. *)
Fixpoint join (sep : string) (l : list string) : string :=
  match l with
  | [] => ""
  | [s] => s
  | s :: rest => s +:+ sep +:+ join sep rest
  end.

End Text.

(** ** The project data ([game.h])

    The header that declares the project records is not among the
    sources; the fields are the ones [linker.cc] reads, with the kinds of
    section 3 of the specification.  Arrays with their element count
    ([nargs], [nactions], ...) are lists. *)

Module argument.
(** Modelled from the spec: the kinds of [struct argument] in [game.h]
    (absent), as the rendering's [switch] names them.  [arg_resource]
    stands for every kind that reaches its [default] branch. *)
Inductive kind_t : Set :=
  | arg_expr | arg_string | arg_both | arg_bool
  | arg_menu | arg_color | arg_resource.
(** Modelled from the spec: [struct argument] of [game.h] (absent). *)
Record t : Set := { kind : kind_t; val : string; resource : Z }.
End argument.

Module action_type.
(** Modelled from the spec: the kinds and execution kinds of
    [struct action_type] in [game.h] (absent).  [act_other] stands for
    every kind that reaches the [default] branch of [build_objects],
    [exec_function] for the execution kind that calls the literal
    code. *)
Inductive kind_t : Set :=
  | act_normal | act_begin | act_end | act_else | act_exit
  | act_repeat | act_variable | act_code | act_other.
Inductive exec_t : Set := exec_none | exec_function | exec_code.
(** Modelled from the spec: [struct action_type] of [game.h] (absent),
    the library action descriptor. *)
Record t : Set := {
  id : Z;
  parent : Z;
  kind : kind_t;
  exec : exec_t;
  question : bool;
  relative : bool;
  code : string;
  nargs : Z
}.
#[global] Instance kind_eq_dec : EqDecision kind_t.
Proof. solve_decision. Defined.
#[global] Instance exec_eq_dec : EqDecision exec_t.
Proof. solve_decision. Defined.
End action_type.

Module action.
(** Modelled from the spec: [action::self] of [game.h] (absent), the
    target that stands for the current instance; -1 is the selector
    that the runtime's [lookup] resolves to [self]. *)
Definition self : Z := -1.
(** Modelled from the spec: [struct action] of [game.h] (absent). *)
Record t : Set := {
  type : action_type.t;
  relative : bool;
  inv : bool;
  target : Z;
  args : list argument.t
}.
Definition nargs (act : t) : nat := length (args act).
End action.

Module event.
(** Modelled from the spec: [struct event] of [game.h] (absent). *)
Record t : Set := {
  main_id : Z;
  sub_id : Z;
  actions : list action.t
}.
End event.

Module object.
(** Modelled from the spec: [struct object] of [game.h] (absent). *)
Record t : Set := { name : string; events : list event.t }.
End object.

Module script.
(** Modelled from the spec: [struct script] of [game.h] (absent). *)
Record t : Set := { name : string; code : string }.
End script.

Module game.
(** Modelled from the spec: [struct game] of [game.h] (absent), with
    the three arrays the build reads. *)
Record t : Set := {
  actions : list action_type.t;
  scripts : list script.t;
  objects : list object.t
}.
End game.

(** ** Rendering an argument ([operator<<(std::ostream&, const argument&)]) *)

Module Render.
Import Text.

(** The text that replaces one double quote: [dquote + ' dquote ' + dquote]. *)
Definition escaped_quote : string :=
  String dquote ("+'" +:+ String dquote ("'+" +:+ String dquote "")).

(** The [while (val.find(dquote) != npos)] loop.  One unit of fuel pays
    for one evaluation of the loop condition. *)
Fixpoint escape_quotes (fuel : nat) (val : string) : outcome string :=
  match fuel with
  | O => Diverges
  | S fuel' =>
      match find dquote val with
      | None => Done val
      | Some pos => escape_quotes fuel' (replace pos 1 escaped_quote val)
      end
  end.

Definition render_string (fuel : nat) (v : string) : outcome string :=
  val ← escape_quotes fuel v;
  Done (String dquote val +:+ String dquote "").

Definition render_argument (fuel : nat) (arg : argument.t) : outcome string :=
  match argument.kind arg with
  | argument.arg_expr => Done (argument.val arg)
  | argument.arg_both =>
      if bool_decide (first_char (argument.val arg) = dquote)
         || bool_decide (first_char (argument.val arg) = squote)
      then Done (argument.val arg)
      else render_string fuel (argument.val arg)
  | argument.arg_string => render_string fuel (argument.val arg)
  | argument.arg_bool =>
      Done (show_bool (bool_decide (first_char (argument.val arg) = "0"%char)))
  | argument.arg_menu => Done (argument.val arg)
  | argument.arg_color => Done ("$" +:+ argument.val arg)
  | argument.arg_resource => Done (pretty (argument.resource arg))
  end.

End Render.

(** ** The diagnostics sink ([error_stream]) *)

Module error_stream.
(** Modelled from the spec: [class error_stream] is not among the
    sources.  It is the accumulator of section 3: [error] records a
    message under the current context, [count] is the number of errors
    recorded so far, and nothing ever clears it. *)
Record t : Set := {
  context : string;
  errors : list (string * string);
  progresses : list (Z * string)
}.
Definition empty : t := {| context := ""; errors := []; progresses := [] |}.
Definition set_context (name : string) (e : t) : t :=
  {| context := name; errors := errors e; progresses := progresses e |}.
Definition error (msg : string) (e : t) : t :=
  {| context := context e;
     errors := errors e ++ [(context e, msg)];
     progresses := progresses e |}.
Definition progress (pct : Z) (label : string) (e : t) : t :=
  {| context := context e;
     errors := errors e;
     progresses := progresses e ++ [(pct, label)] |}.
Definition count (e : t) : nat := length (errors e).
(** Several diagnostics of one parse or one code generation, in order. *)
Definition report (msgs : list string) (e : t) : t :=
  foldl (λ e msg, error msg e) e msgs.
End error_stream.

(** ** The collaborators

    The parser, the code generator and the LLVM toolkit are outside the
    sources; the linker is stated over their interfaces.  The code
    generator is known by the calls it receives, in order. *)

Inductive cg_call (node : Type) : Type :=
  | register_script_call (name : string)
  | add_function_call (program : node) (name : string) (args : Z) (var : bool).
Arguments register_script_call {node} name.
Arguments add_function_call {node} program name args var.

Class Compiler (node : Type) := {
  (** [parser::getprogram] on a source text: the program and the syntax
      errors it reports to the sink. *)
  getprogram : string → node * list string;
  (** The errors [codegen::add_function] reports, given the calls the code
      generator has received before. *)
  codegen_errors : list (cg_call node) → node → string → Z → bool → list string
}.

Class Backend (node llvm_module : Type) := {
  (** [codegen::get_module]. *)
  get_module : list (cg_call node) → llvm_module;
  (** [verifyModule]: the text of the defect when the module is broken. *)
  verifyModule : llvm_module → option string;
  (** [populateModulePassManager] and [populateLTOPassManager] pipelines. *)
  module_passes : llvm_module → llvm_module;
  lto_passes : llvm_module → llvm_module;
  (** [Module(name, context)]. *)
  new_module : string → llvm_module;
  (** [Linker::linkInModule] into a destination: whether it failed, and
      the destination afterwards.  What the merge leaves of the module
      merged in is not modelled. *)
  linkInModule : llvm_module → llvm_module → bool * llvm_module;
  (** Opening a [tool_output_file]: the system's message when it fails. *)
  open_output : string → option string
}.

(** ** The linker ([linker.cc]) *)

Module Linker.
Import Text Render.

(** [size_t] to [int], as at the call of [add_function] in
    [build_libraries]. *)
Definition int_of_size_t (n : Z) : Z := (n + 2 ^ 31) `mod` 2 ^ 32 - 2 ^ 31.

Section linker.
Context {node llvm_module : Type}.
Context `{!Compiler node, !Backend node llvm_module}.

(** The members of [class linker] that the build reads and writes, and the
    files it leaves behind (a path holds the module written to it). *)
Record t : Type := {
  output : string;
  source : game.t;
  errors : error_stream.t;
  compiler : list (cg_call node);
  runtime : llvm_module;
  files : gmap string llvm_module
}.

Definition with_errors (f : error_stream.t → error_stream.t) (st : t) : t :=
  {| output := output st; source := source st; errors := f (errors st);
     compiler := compiler st; runtime := runtime st; files := files st |}.

Definition with_compiler (c : list (cg_call node)) (st : t) : t :=
  {| output := output st; source := source st; errors := errors st;
     compiler := c; runtime := runtime st; files := files st |}.

Definition with_file (path : string) (m : llvm_module) (st : t) : t :=
  {| output := output st; source := source st; errors := errors st;
     compiler := compiler st; runtime := runtime st;
     files := <[path := m]> (files st) |}.

(** [codegen::register_script]. *)
Definition register_script (name : string) (st : t) : t :=
  with_compiler (compiler st ++ [register_script_call name]) st.

(** [codegen::add_function]: the function joins the module, and what the
    code generator reports goes to the shared sink. *)
Definition codegen_add_function
    (program : node) (name : string) (args : Z) (var : bool) (st : t) : t :=
  with_errors
    (error_stream.report (codegen_errors (compiler st) program name args var))
    (with_compiler
       (compiler st ++ [add_function_call program name args var]) st).

(** [linker::add_function].  [data] stands for the pair [length, data]. *)
Definition add_function
    (data : string) (name : string) (args : Z) (var : bool) (st : t) : t :=
  let st := with_errors (error_stream.set_context name) st in
  let '(program, syntax_errors) := getprogram data in
  let st := with_errors (error_stream.report syntax_errors) st in
  if decide (0 < error_stream.count (errors st))%nat then st
  else codegen_add_function program name args var st.

(** [linker::build_libraries]: the name built in the [ostringstream], then
    the body of the loop, then the loop. *)
Definition library_name (ty : action_type.t) : string :=
  let name := "action_lib" in
  let name :=
    if decide (-1 < action_type.parent ty)
    then name +:+ pretty (action_type.parent ty) else name in
  name +:+ "_" +:+ pretty (action_type.id ty).

Definition build_library (st : t) (ty : action_type.t) : t :=
  if decide (action_type.exec ty ≠ action_type.exec_code) then st
  else
    let nargs := action_type.nargs ty in
    let nargs := if action_type.relative ty then nargs + 1 else nargs in
    add_function (action_type.code ty) (library_name ty)
      (int_of_size_t nargs) false st.

Definition build_libraries (st : t) : t :=
  foldl build_library st (game.actions (source st)).

(** [linker::build_scripts]. *)
Definition build_scripts (st : t) : t :=
  let st :=
    foldl (λ st s, register_script (script.name s) st)
      st (game.scripts (source st)) in
  foldl (λ st s, add_function (script.code s) (script.name s) 0 true st)
    st (game.scripts (source st)).

(** [linker::build_objects].  [act.args[n]] outside the array is
    undefined. *)
Definition arg_val (act : action.t) (n : nat) : outcome string :=
  of_option (argument.val <$> action.args act !! n).

(** The name of the unit compiled for the code action at index [a]. *)
Definition code_action_name (obj : object.t) (evt : event.t) (a : nat) : string :=
  object.name obj +:+ "_" +:+ pretty (event.main_id evt) +:+ "_"
    +:+ pretty (event.sub_id evt) +:+ "_" +:+ pretty (Z.of_nat a).

(** The name of the unit compiled for the event itself. *)
Definition event_name (obj : object.t) (evt : event.t) : string :=
  object.name obj +:+ "_" +:+ pretty (event.main_id evt) +:+ "_"
    +:+ pretty (event.sub_id evt).

(** [for (; n < act.nargs; n++)], from index [n] on. *)
Fixpoint put_args (fuel : nat) (n : nat) (args : list argument.t)
    (code : string) : outcome string :=
  match args with
  | [] => Done code
  | arg :: rest =>
      let code := if decide (n ≠ 0%nat) then code +:+ ", " else code in
      text ← render_argument fuel arg;
      put_args fuel (S n) rest (code +:+ text)
  end.

(** The callee of a normal action. *)
Definition put_callee (ty : action_type.t) (code : string) : string :=
  if decide (action_type.exec ty = action_type.exec_code) then
    let code := code +:+ "action_lib" in
    let code :=
      if decide (-1 < action_type.parent ty)
      then code +:+ pretty (action_type.parent ty) else code in
    code +:+ "_" +:+ pretty (action_type.id ty)
  else code +:+ action_type.code ty.

(** [case action_type::act_normal], after the [exec_none] test. *)
Definition put_normal (fuel : nat) (act : action.t) (code : string)
    : outcome string :=
  let ty := action.type act in
  let code :=
    if decide (action.target act ≠ action.self)
    then code +:+ "with (" +:+ pretty (action.target act) +:+ ")" else code in
  let code := if action_type.question ty then code +:+ "if (" else code in
  let code := if action.inv act then code +:+ "!" else code in
  let code := put_callee ty code in
  let code := code +:+ "(" in
  code ← put_args fuel 0 (action.args act) code;
  let code :=
    if action_type.relative ty
    then code +:+ ", " +:+ show_bool (action.relative act) else code in
  let code := code +:+ ")" in
  let code := if action_type.question ty then code +:+ ")" else code in
  Done (code +:+ nl).

(** The body of the loop over the actions of an event: the [switch]. *)
Definition put_action (fuel : nat) (obj : object.t) (evt : event.t)
    (a : nat) (act : action.t) (st : t) (code : string)
    : outcome (t * string) :=
  match action_type.kind (action.type act) with
  | action_type.act_begin => Done (st, code +:+ "{" +:+ nl)
  | action_type.act_end => Done (st, code +:+ "}" +:+ nl)
  | action_type.act_else => Done (st, code +:+ "else" +:+ nl)
  | action_type.act_exit => Done (st, code +:+ "exit" +:+ nl)
  | action_type.act_repeat =>
      v0 ← arg_val act 0;
      Done (st, code +:+ "repeat (" +:+ v0 +:+ ")" +:+ nl)
  | action_type.act_variable =>
      v0 ← arg_val act 0;
      v1 ← arg_val act 1;
      Done (st, code +:+ v0
                  +:+ (if action.relative act then " += " else " = ")
                  +:+ v1 +:+ nl)
  | action_type.act_code =>
      let s := code_action_name obj evt a in
      v0 ← arg_val act 0;
      let st := add_function v0 s 0 false st in
      Done (st, code +:+ s +:+ "()" +:+ nl)
  | action_type.act_normal =>
      if decide (action_type.exec (action.type act) = action_type.exec_none)
      then Done (st, code)
      else code ← put_normal fuel act code; Done (st, code)
  | action_type.act_other => Done (st, code)
  end.

Fixpoint put_actions (fuel : nat) (obj : object.t) (evt : event.t)
    (a : nat) (acts : list action.t) (st : t) (code : string)
    : outcome (t * string) :=
  match acts with
  | [] => Done (st, code)
  | act :: rest =>
      '(st, code) ← put_action fuel obj evt a act st code;
      put_actions fuel obj evt (S a) rest st code
  end.

Definition build_event (fuel : nat) (obj : object.t) (st : t) (evt : event.t)
    : outcome t :=
  '(st, c) ← put_actions fuel obj evt 0 (event.actions evt) st "";
  Done (add_function c (event_name obj evt) 0 false st).

Fixpoint build_events (fuel : nat) (obj : object.t) (evts : list event.t)
    (st : t) : outcome t :=
  match evts with
  | [] => Done st
  | evt :: rest => st ← build_event fuel obj st evt; build_events fuel obj rest st
  end.

Fixpoint build_objects_from (fuel : nat) (objs : list object.t) (st : t)
    : outcome t :=
  match objs with
  | [] => Done st
  | obj :: rest =>
      st ← build_events fuel obj (object.events obj) st;
      build_objects_from fuel rest st
  end.

Definition build_objects (fuel : nat) (st : t) : outcome t :=
  build_objects_from fuel (game.objects (source st)) st.

Definition objects_path (st : t) : string := output st +:+ "/objects.bc".

(** [load_module]: the module the file holds.  The source takes the
    result of reading the file without a check, so a missing file is
    undefined. *)
Definition load_module (filename : string) (fs : gmap string llvm_module)
    : outcome llvm_module :=
  of_option (fs !! filename).

(** [linker::linker]. *)
Definition new (out : string) (g : game.t) (e : error_stream.t)
    (fs : gmap string llvm_module) : outcome t :=
  rt ← load_module "runtime.bc" fs;
  Done {| output := out; source := g; errors := e; compiler := [];
          runtime := rt; files := fs |}.

(** [L.linkInModule(objects) || L.linkInModule(runtime)]: the second
    merge runs only when the first did not fail. *)
Definition link_both (game objects rt : llvm_module) : bool * llvm_module :=
  let '(failed, game) := linkInModule game objects in
  if failed then (true, game) else linkInModule game rt.

(** [linker::link]. *)
Definition link (target : string) (debug : bool) (st : t) : outcome (bool * t) :=
  objects ← load_module (objects_path st) (files st);
  let game := new_module "game" in
  let '(failed, game) := link_both game objects (runtime st) in
  let st :=
    if failed
    then with_errors (error_stream.error "failed to link with runtime") st
    else st in
  let game := if debug then game else lto_passes game in
  match open_output target with
  | Some message => Done (false, with_errors (error_stream.error message) st)
  | None => Done (true, with_file target game st)
  end.

(** [linker::build]. *)
Definition build (fuel : nat) (target : string) (debug : bool) (st : t)
    : outcome (bool * t) :=
  let st := with_errors (error_stream.progress 20 "compiling libraries") st in
  let st := build_libraries st in
  let st := with_errors (error_stream.progress 30 "compiling scripts") st in
  let st := build_scripts st in
  let st := with_errors (error_stream.progress 40 "compiling objects") st in
  st ← build_objects fuel st;
  if decide (0 < error_stream.count (errors st))%nat then Done (false, st)
  else
    let game := get_module (compiler st) in
    match verifyModule game with
    | Some message =>
        Done (false, with_errors (error_stream.error message) st)
    | None =>
        let game := if debug then game else module_passes game in
        match open_output (objects_path st) with
        | Some message =>
            Done (false, with_errors (error_stream.error message) st)
        | None =>
            let st := with_file (objects_path st) game st in
            let st :=
              with_errors (error_stream.progress 60 "linking runtime") st in
            '(_, st) ← link target debug st;
            Done (bool_decide (error_stream.count (errors st) = 0%nat), st)
        end
    end.
End linker.
Arguments t : clear implicits.
End Linker.

(** ** The runtime scopes and arrays ([runtime/scope.cc]) *)

Module var.
(** Modelled from the spec: [variant.h] is not among the sources.  A
    [var] is the grid of section 3: its extents [x] and [y] and its
    cells, row after row, in [contents]. *)
Record t (variant : Type) : Type := {
  x : Z;
  y : Z;
  contents : list variant
}.
Arguments x {variant} _.
Arguments y {variant} _.
Arguments contents {variant} _.
End var.

Module Runtime.

(** [double] is IEEE binary64, given by its sign, mantissa and exponent.
    [(int)id] drops the fractional part; it is undefined for a value that
    does not fit [int], for an infinity and for a NaN. *)
Definition int_of_double (d : spec_float) : option Z :=
  match d with
  | S754_zero _ => Some 0
  | S754_finite s m e =>
      let magnitude := Z.shiftl (Z.pos m) e in
      let v := if s then - magnitude else magnitude in
      if bool_decide (- 2 ^ 31 ≤ v ≤ 2 ^ 31 - 1) then Some v else None
  | S754_infinity _ | S754_nan => None
  end.

(** A [scope*] is the static [global] or an instance's scope, known by
    its address; a [var*] is a name's slot in a scope; a [variant*] is a
    cell of the array in a slot. *)
Inductive scope_ptr : Set :=
  | global_ptr
  | instance_ptr (address : nat).
Definition var_ptr : Set := scope_ptr * string.
Definition variant_ptr : Set := var_ptr * Z.

#[global] Instance scope_ptr_eq_dec : EqDecision scope_ptr.
Proof. solve_decision. Defined.

Section runtime.
Context {variant : Type}.
(** The [var] that [unordered_map::operator[]] constructs for a new key. *)
Variable default_var : var.t variant.

(** [struct scope : std::unordered_map<string, var, string_hash>]. *)
Abbreviation scope := (gmap string (var.t variant)).

(** The memory the two functions work on: the static [global], the
    scopes of the instances, and the errors shown so far with their
    [fatal] flag. *)
Record state : Type := {
  global : scope;
  instances : gmap nat scope;
  shown : list (string * bool)
}.

(** Modelled from the spec: [show_error] of [error.h], the report of a
    runtime error.  The two scope pointers that [lookup] hands to it
    are left out: what [show_error] does with them is not in the
    sources. *)
Definition show_error (message : string) (fatal : bool) (st : state) : state :=
  {| global := global st; instances := instances st;
     shown := shown st ++ [(message, fatal)] |}.

(** [*s]: reading through a null or dangling pointer is undefined. *)
Definition deref (s : scope_ptr) (st : state) : outcome scope :=
  match s with
  | global_ptr => Done (global st)
  | instance_ptr address => of_option (instances st !! address)
  end.

Definition store (s : scope_ptr) (sc : scope) (st : state) : state :=
  match s with
  | global_ptr =>
      {| global := sc; instances := instances st; shown := shown st |}
  | instance_ptr address =>
      {| global := global st; instances := <[address := sc]> (instances st);
         shown := shown st |}
  end.

(** The subscription of [*s] by [name]: a missing key is inserted with a
    fresh [var]. *)
Definition subscript (name : string) (sc : scope) : scope :=
  match sc !! name with
  | Some _ => sc
  | None => <[name := default_var]> sc
  end.

(** [lookup].  The result is the pointer returned, [None] for null. *)
Definition lookup (self other : scope_ptr) (id : spec_float) (name : string)
    (st : state) : outcome (option var_ptr * state) :=
  selector ← of_option (int_of_double id);
  let resolve (s : scope_ptr) :=
    sc ← deref s st;
    Done (Some (s, name), store s (subscript name sc) st) in
  if decide (selector = -1) then resolve self
  else if decide (selector = -2) then resolve other
  else if decide (selector = -5) then resolve global_ptr
  else if decide (selector = -3 ∨ selector = -4) then
    Done (None, show_error "variable does not exist" true st)
  else if decide (selector = -6) then
    Done (None, show_error "local is not supported" true st)
  else Done (None, st).

(** [*a]. *)
Definition deref_var (a : var_ptr) (st : state) : outcome (var.t variant) :=
  sc ← deref a.1 st;
  of_option (sc !! a.2).

(** [access].  [x] and [y] are [unsigned short] values. *)
Definition access (a : var_ptr) (x y : Z) (st : state)
    : outcome (option variant_ptr * state) :=
  v ← deref_var a st;
  if decide (x >= var.x v) then
    Done (None, show_error "index out of bounds" true st)
  else if decide (y >= var.y v) then
    Done (None, show_error "index out of bounds" true st)
  else Done (Some (a, x + y * var.x v), st).

(** The cell a [variant*] points to. *)
Definition cell (p : variant_ptr) (st : state) : outcome variant :=
  v ← deref_var p.1 st;
  if decide (0 ≤ p.2) then of_option (var.contents v !! Z.to_nat p.2)
  else Undefined.
End runtime.
Arguments state : clear implicits.
End Runtime.

(** ** The specification's wording, for comparison with the code *)

Module Spec.
Import Text.

(** A unit: source text, name, argument count and the script flag. *)
Record unit_t : Set := {
  text : string;
  name : string;
  args : Z;
  is_script : bool
}.

(** The callee of a normal action: the library function of the type's
    [(parent, id)] when the type executes code, its literal code
    otherwise. *)
Definition callee (ty : action_type.t) : string :=
  if decide (action_type.exec ty = action_type.exec_code)
  then Linker.library_name ty
  else action_type.code ty.

(** The argument list of a normal action: the rendered arguments, and the
    relative argument after them when the type declares one. *)
Definition argument_list (act : action.t) (rendered : list string) : list string :=
  rendered ++
    (if action_type.relative (action.type act)
     then [show_bool (action.relative act)] else []).

(** The arguments of an action, each rendered by its kind. *)
Fixpoint render_all (fuel : nat) (args : list argument.t) : outcome (list string) :=
  match args with
  | [] => Done []
  | arg :: rest =>
      text ← Render.render_argument fuel arg;
      texts ← render_all fuel rest;
      Done (text :: texts)
  end.

(** The text of a normal action, piece by piece: what comes before the
    argument list, the list between parentheses, what comes after it. *)
Definition before_arguments (act : action.t) : string :=
  (if decide (action.target act ≠ action.self)
   then "with (" +:+ pretty (action.target act) +:+ ")" else "")
  +:+ (if action_type.question (action.type act) then "if (" else "")
  +:+ (if action.inv act then "!" else "")
  +:+ callee (action.type act).

Definition after_arguments (act : action.t) : string :=
  if action_type.question (action.type act) then ")" else "".

Definition normal_text (act : action.t) (rendered : list string) : string :=
  before_arguments act
  +:+ "(" +:+ join ", " (argument_list act rendered) +:+ ")"
  +:+ after_arguments act.

End Spec.

(** ** Sequences of units

    The unit compiler applied to one unit after the other, and the units
    the library and script phases hand to it. *)

Module Units.

Definition is_add_function {node : Type} (c : cg_call node) : bool :=
  match c with
  | add_function_call _ _ _ _ => true
  | register_script_call _ => false
  end.

Definition library_unit (ty : action_type.t) : Spec.unit_t :=
  {| Spec.text := action_type.code ty;
     Spec.name := Linker.library_name ty;
     Spec.args :=
       Linker.int_of_size_t
         (if action_type.relative ty
          then action_type.nargs ty + 1 else action_type.nargs ty);
     Spec.is_script := false |}.

Definition script_unit (s : script.t) : Spec.unit_t :=
  {| Spec.text := script.code s; Spec.name := script.name s;
     Spec.args := 0; Spec.is_script := true |}.

Section units.
Context {node llvm_module : Type}.
Context `{!Compiler node, !Backend node llvm_module}.

Definition compile (st : Linker.t node llvm_module) (u : Spec.unit_t)
    : Linker.t node llvm_module :=
  Linker.add_function
    (Spec.text u) (Spec.name u) (Spec.args u) (Spec.is_script u) st.

Definition compile_all (st : Linker.t node llvm_module)
    (us : list Spec.unit_t) : Linker.t node llvm_module :=
  foldl compile st us.

(** The first pass of the script phase: the names are registered. *)
Definition registered (st : Linker.t node llvm_module) (ss : list script.t)
    : Linker.t node llvm_module :=
  foldl (λ st s, Linker.register_script (script.name s) st) st ss.

(** The call the code generator receives for a unit that is compiled. *)
Definition call_of (u : Spec.unit_t) : cg_call node :=
  add_function_call (getprogram (Spec.text u)).1
    (Spec.name u) (Spec.args u) (Spec.is_script u).

(** [st'] is [st] after some units went through the unit compiler:
    nothing but the sink and the code generator moved, no error was
    forgotten, and the code generator received functions only. *)
Definition grows (st st' : Linker.t node llvm_module) : Prop :=
  Linker.source st' = Linker.source st
  ∧ Linker.output st' = Linker.output st
  ∧ Linker.runtime st' = Linker.runtime st
  ∧ Linker.files st' = Linker.files st
  ∧ (error_stream.count (Linker.errors st)
     ≤ error_stream.count (Linker.errors st'))%nat
  ∧ ∃ added,
      Linker.compiler st' = Linker.compiler st ++ added
      ∧ forallb is_add_function added = true.

(** [st'] comes later in the build than [st]: the project and the files
    are the same and no error was forgotten. *)
Definition follows (st st' : Linker.t node llvm_module) : Prop :=
  Linker.source st' = Linker.source st
  ∧ Linker.files st' = Linker.files st
  ∧ (error_stream.count (Linker.errors st)
     ≤ error_stream.count (Linker.errors st'))%nat.

(** The state in which the object phase of [build] starts. *)
Definition before_objects (st : Linker.t node llvm_module)
    : Linker.t node llvm_module :=
  Linker.with_errors (error_stream.progress 40 "compiling objects")
    (Linker.build_scripts
       (Linker.with_errors (error_stream.progress 30 "compiling scripts")
          (Linker.build_libraries
             (Linker.with_errors
                (error_stream.progress 20 "compiling libraries") st)))).
End units.
End Units.

(** ** Projects whose objects can be rendered

    The synthesis of an event's text stops short of a result in two cases:
    a quoted argument whose text holds a double quote (the escaping loop
    does not end) and a repeat, variable or code action with too few
    arguments.  The other projects are the renderable ones. *)

Module Renderable.
Import Text.

Definition quote_free (v : string) : bool := all_chars (is_not dquote) v.

Definition argument_ok (arg : argument.t) : bool :=
  match argument.kind arg with
  | argument.arg_string => quote_free (argument.val arg)
  | argument.arg_both =>
      bool_decide (first_char (argument.val arg) = dquote)
      || bool_decide (first_char (argument.val arg) = squote)
      || quote_free (argument.val arg)
  | _ => true
  end.

Definition action_ok (act : action.t) : bool :=
  match action_type.kind (action.type act) with
  | action_type.act_repeat | action_type.act_code =>
      bool_decide (1 ≤ length (action.args act))%nat
  | action_type.act_variable =>
      bool_decide (2 ≤ length (action.args act))%nat
  | action_type.act_normal =>
      bool_decide (action_type.exec (action.type act) = action_type.exec_none)
      || forallb argument_ok (action.args act)
  | _ => true
  end.

Definition event_ok (evt : event.t) : bool :=
  forallb action_ok (event.actions evt).

Definition object_ok (obj : object.t) : bool :=
  forallb event_ok (object.events obj).

Definition game_ok (g : game.t) : bool :=
  forallb object_ok (game.objects g).

End Renderable.

(** ** A small tool chain and project, to run the definitions on

    Programs are their own text.  The parser rejects a text that starts
    with a question mark; the code generator rejects [call f] unless [f]
    is a registered script; a module is the list of its function names,
    and merging fails on a name defined on both sides. *)

Module Toy.
Import Text.

Definition callee_of (program : string) : option string :=
  if bool_decide (take 5 program = "call ") then Some (drop 5 program) else None.

Definition is_registered (f : string) (log : list (cg_call string)) : bool :=
  existsb
    (λ c, match c with
          | register_script_call n => bool_decide (n = f)
          | add_function_call _ _ _ _ => false
          end) log.

#[global] Instance toy_compiler : Compiler string := {|
  getprogram data :=
    (data, if bool_decide (first_char data = "?"%char)
           then ["unexpected symbol"] else []);
  codegen_errors log program name args var :=
    match callee_of program with
    | Some f => if is_registered f log then [] else ["unknown function"]
    | None => []
    end
|}.

Definition function_names (log : list (cg_call string)) : list string :=
  omap (λ c, match c with
             | register_script_call _ => None
             | add_function_call _ n _ _ => Some n
             end) log.

#[global] Instance toy_backend : Backend string (list string) := {|
  get_module := function_names;
  verifyModule m := None;
  module_passes m := m;
  lto_passes m := m;
  new_module _ := [];
  linkInModule dest src :=
    if forallb (λ f, bool_decide (f ∉ dest)) src
    then (false, dest ++ src) else (true, dest);
  open_output path :=
    if bool_decide (path = "") then Some "No such file or directory" else None
|}.

Definition linker_of (g : game.t) (fs : gmap string (list string))
    : Linker.t string (list string) :=
  {| Linker.output := "out"; Linker.source := g;
     Linker.errors := error_stream.empty; Linker.compiler := [];
     Linker.runtime := ["show_message"]; Linker.files := fs |}.

Definition no_game : game.t :=
  {| game.actions := []; game.scripts := []; game.objects := [] |}.

(** Two library descriptors without a parent, told apart by the parent
    field only. *)
Definition lib_a : action_type.t :=
  {| action_type.id := 1; action_type.parent := -1;
     action_type.kind := action_type.act_normal;
     action_type.exec := action_type.exec_code;
     action_type.question := false; action_type.relative := false;
     action_type.code := "return 0"; action_type.nargs := 0 |}.

Definition lib_b : action_type.t :=
  {| action_type.id := 1; action_type.parent := -2;
     action_type.kind := action_type.act_normal;
     action_type.exec := action_type.exec_code;
     action_type.question := false; action_type.relative := false;
     action_type.code := "return 1"; action_type.nargs := 0 |}.

(** A library descriptor with a parent. *)
Definition lib_c : action_type.t :=
  {| action_type.id := 1; action_type.parent := 0;
     action_type.kind := action_type.act_normal;
     action_type.exec := action_type.exec_code;
     action_type.question := true; action_type.relative := false;
     action_type.code := "return 2"; action_type.nargs := 0 |}.

(** A normal action without arguments whose type takes the relative
    argument. *)
Definition type_move : action_type.t :=
  {| action_type.id := 7; action_type.parent := -1;
     action_type.kind := action_type.act_normal;
     action_type.exec := action_type.exec_function;
     action_type.question := false; action_type.relative := true;
     action_type.code := "move"; action_type.nargs := 0 |}.
Definition act_move : action.t :=
  {| action.type := type_move; action.relative := false;
     action.inv := false; action.target := action.self; action.args := [] |}.

(** An object with one event. *)
Definition evt_step : event.t :=
  {| event.main_id := 3; event.sub_id := 0; event.actions := [] |}.
Definition obj_ball : object.t :=
  {| object.name := "obj_ball"; object.events := [evt_step] |}.

(** The empty project in a fresh linker. *)
Definition linker0 : Linker.t string (list string) := linker_of no_game ∅.

(** Script [A] calls script [B], which is declared after it. *)
Definition script_A : script.t := {| script.name := "A"; script.code := "call B" |}.
Definition script_B : script.t := {| script.name := "B"; script.code := "x = 1" |}.
Definition forward_game : game.t :=
  {| game.actions := []; game.scripts := [script_A; script_B];
     game.objects := [] |}.

(** One script with a syntax error, followed by a sound one. *)
Definition script_bad : script.t := {| script.name := "bad"; script.code := "? x" |}.
Definition broken_game : game.t :=
  {| game.actions := []; game.scripts := [script_bad; script_B];
     game.objects := [] |}.

(** The compiled objects define [show_message], and so does the runtime. *)
Definition clashing_files : gmap string (list string) :=
  {[ "out/objects.bc" := ["show_message"] ]}.

(** A unit with a syntax error and two sound ones. *)
Definition bad_unit : Spec.unit_t :=
  {| Spec.text := "? x"; Spec.name := "bad"; Spec.args := 0;
     Spec.is_script := true |}.
Definition good_unit : Spec.unit_t :=
  {| Spec.text := "x = 1"; Spec.name := "good"; Spec.args := 0;
     Spec.is_script := true |}.
Definition first_unit : Spec.unit_t :=
  {| Spec.text := "y = 2"; Spec.name := "first"; Spec.args := 0;
     Spec.is_script := true |}.

(** An event with a code action between two others. *)
Definition type_of_kind (k : action_type.kind_t) : action_type.t :=
  {| action_type.id := 0; action_type.parent := -1;
     action_type.kind := k; action_type.exec := action_type.exec_none;
     action_type.question := false; action_type.relative := false;
     action_type.code := ""; action_type.nargs := 0 |}.
Definition act_of_kind (k : action_type.kind_t) (texts : list string) : action.t :=
  {| action.type := type_of_kind k; action.relative := false;
     action.inv := false; action.target := action.self;
     action.args :=
       map (λ v, {| argument.kind := argument.arg_expr; argument.val := v;
                    argument.resource := 0 |}) texts |}.
Definition act_inline : action.t := act_of_kind action_type.act_code ["x = 1"].

(** A runtime memory: a two by three array in the global scope, and two
    instances without variables.  The selectors are the doubles -1, -5
    and -3. *)
Definition fresh : var.t Z := {| var.x := 1; var.y := 1; var.contents := [0] |}.
Definition grid : var.t Z :=
  {| var.x := 2; var.y := 3; var.contents := [10; 11; 20; 21; 30; 31] |}.
Definition memory : Runtime.state Z :=
  {| Runtime.global := {[ "score" := grid ]};
     Runtime.instances := {[ 1%nat := ∅; 2%nat := ∅ ]};
     Runtime.shown := [] |}.
Definition double_self : spec_float := S754_finite true 4503599627370496 (-52).
Definition double_global : spec_float := S754_finite true 5629499534213120 (-50).
Definition double_all : spec_float := S754_finite true 6755399441055744 (-51).

End Toy.

(** ** The units of the object phase, without the linker

    What the loops of [build_objects] hand to the unit compiler and write
    into the text of an event, as functions of the project alone. *)

Module Synthesis.
Import Text Render Linker.

(** The unit of the code action at index [a], for the text [v0] of its
    first argument, and the unit of an event with the text [c]. *)
Definition code_unit (obj : object.t) (evt : event.t) (a : nat) (v0 : string)
    : Spec.unit_t :=
  {| Spec.text := v0; Spec.name := code_action_name obj evt a;
     Spec.args := 0; Spec.is_script := false |}.

Definition event_unit (obj : object.t) (evt : event.t) (c : string)
    : Spec.unit_t :=
  {| Spec.text := c; Spec.name := event_name obj evt;
     Spec.args := 0; Spec.is_script := false |}.

(** The units and the text that one action of an event adds. *)
Definition action_part (fuel : nat) (obj : object.t) (evt : event.t)
    (a : nat) (act : action.t) : outcome (list Spec.unit_t * string) :=
  match action_type.kind (action.type act) with
  | action_type.act_begin => Done ([], "{" +:+ nl)
  | action_type.act_end => Done ([], "}" +:+ nl)
  | action_type.act_else => Done ([], "else" +:+ nl)
  | action_type.act_exit => Done ([], "exit" +:+ nl)
  | action_type.act_repeat =>
      v0 ← arg_val act 0;
      Done ([], "repeat (" +:+ v0 +:+ ")" +:+ nl)
  | action_type.act_variable =>
      v0 ← arg_val act 0;
      v1 ← arg_val act 1;
      Done ([], v0 +:+ (if action.relative act then " += " else " = ")
                   +:+ v1 +:+ nl)
  | action_type.act_code =>
      v0 ← arg_val act 0;
      Done ([code_unit obj evt a v0],
            code_action_name obj evt a +:+ "()" +:+ nl)
  | action_type.act_normal =>
      if decide (action_type.exec (action.type act) = action_type.exec_none)
      then Done ([], "")
      else text ← put_normal fuel act ""; Done ([], text)
  | action_type.act_other => Done ([], "")
  end.

Fixpoint actions_part (fuel : nat) (obj : object.t) (evt : event.t)
    (a : nat) (acts : list action.t) : outcome (list Spec.unit_t * string) :=
  match acts with
  | [] => Done ([], "")
  | act :: rest =>
      '(us, text) ← action_part fuel obj evt a act;
      '(us', text') ← actions_part fuel obj evt (S a) rest;
      Done (us ++ us', text +:+ text')
  end.

(** The units of an event: those of its code actions, then its own. *)
Definition event_units (fuel : nat) (obj : object.t) (evt : event.t)
    : outcome (list Spec.unit_t) :=
  '(us, text) ← actions_part fuel obj evt 0 (event.actions evt);
  Done (us ++ [event_unit obj evt text]).

Fixpoint events_units (fuel : nat) (obj : object.t) (evts : list event.t)
    : outcome (list Spec.unit_t) :=
  match evts with
  | [] => Done []
  | evt :: rest =>
      us ← event_units fuel obj evt;
      us' ← events_units fuel obj rest;
      Done (us ++ us')
  end.

Fixpoint objects_units (fuel : nat) (objs : list object.t)
    : outcome (list Spec.unit_t) :=
  match objs with
  | [] => Done []
  | obj :: rest =>
      us ← events_units fuel obj (object.events obj);
      us' ← objects_units fuel rest;
      Done (us ++ us')
  end.

(** An action that writes nothing and compiles nothing. *)
Definition is_silent (act : action.t) : bool :=
  match action_type.kind (action.type act) with
  | action_type.act_other => true
  | action_type.act_normal =>
      bool_decide (action_type.exec (action.type act) = action_type.exec_none)
  | _ => false
  end.

End Synthesis.

(** ** More sample data *)

Module Sample.
Import Text.

(** The text [say "hi"], with its two double quotes. *)
Definition say_hi : string :=
  "say " +:+ String dquote ("hi" +:+ String dquote "").

Definition arg_of (k : argument.kind_t) (v : string) : argument.t :=
  {| argument.kind := k; argument.val := v; argument.resource := 0 |}.

(** A code action whose text the toy parser rejects. *)
Definition act_unparsable : action.t :=
  Toy.act_of_kind action_type.act_code ["? x"].

(** A unit the toy code generator refuses: it calls a script that was
    never registered. *)
Definition calls_ghost : Spec.unit_t :=
  {| Spec.text := "call ghost"; Spec.name := "caller"; Spec.args := 0;
     Spec.is_script := false |}.

End Sample.

(** ** The stages of [build] *)

Module BuildStages.
Section stages.
Context {node llvm_module : Type}.
Context `{!Compiler node, !Backend node llvm_module}.

(** [st'] is [st] later in a build: the output directory, the project
    and the runtime module are the same, and the log of errors and the
    calls received by the code generator have only been added to. *)
Definition extends (st st' : Linker.t node llvm_module) : Prop :=
  Linker.output st' = Linker.output st
  ∧ Linker.source st' = Linker.source st
  ∧ Linker.runtime st' = Linker.runtime st
  ∧ (∃ new,
       error_stream.errors (Linker.errors st')
       = error_stream.errors (Linker.errors st) ++ new)
  ∧ (∃ added, Linker.compiler st' = Linker.compiler st ++ added).

(** The same without the runtime module, of which the linker keeps no
    account once it has been merged. *)
Definition only_appends (st st' : Linker.t node llvm_module) : Prop :=
  Linker.output st' = Linker.output st
  ∧ Linker.source st' = Linker.source st
  ∧ (∃ new,
       error_stream.errors (Linker.errors st')
       = error_stream.errors (Linker.errors st) ++ new)
  ∧ (∃ added, Linker.compiler st' = Linker.compiler st ++ added).

(** The modules that [build] and [link] write: the pipelines are left
    out in debug mode. *)
Definition objects_module (debug : bool) (st : Linker.t node llvm_module)
    : llvm_module :=
  if debug then get_module (Linker.compiler st)
  else module_passes (get_module (Linker.compiler st)).

Definition final_module (debug : bool) (merged : llvm_module) : llvm_module :=
  if debug then merged else lto_passes merged.

(** What [build] does once the three phases are over: the rest of its
    body, from the test of the error count on. *)
Definition backend (target : string) (debug : bool)
    (st : Linker.t node llvm_module)
    : outcome (bool * Linker.t node llvm_module) :=
  if decide (0 < error_stream.count (Linker.errors st))%nat
  then Done (false, st)
  else
    let game := get_module (Linker.compiler st) in
    match verifyModule game with
    | Some message =>
        Done (false, Linker.with_errors (error_stream.error message) st)
    | None =>
        let game := if debug then game else module_passes game in
        match open_output (Linker.objects_path st) with
        | Some message =>
            Done (false,
                  Linker.with_errors (error_stream.error message) st)
        | None =>
            let st := Linker.with_file (Linker.objects_path st) game st in
            let st :=
              Linker.with_errors
                (error_stream.progress 60 "linking runtime") st in
            '(_, st) ← Linker.link target debug st;
            Done (bool_decide
                    (error_stream.count (Linker.errors st) = 0%nat), st)
        end
    end.

End stages.
End BuildStages.

(** ** More sample projects *)

Module Sample2.
Import Text.

(** A normal action that calls [show] on a string argument whose text
    holds double quotes, in the one event of the one object of a
    project. *)
Definition type_show : action_type.t :=
  {| action_type.id := 3; action_type.parent := -1;
     action_type.kind := action_type.act_normal;
     action_type.exec := action_type.exec_function;
     action_type.question := false; action_type.relative := false;
     action_type.code := "show"; action_type.nargs := 1 |}.
Definition act_show : action.t :=
  {| action.type := type_show; action.relative := false;
     action.inv := false; action.target := action.self;
     action.args := [Sample.arg_of argument.arg_string Sample.say_hi] |}.
Definition quoting_game : game.t :=
  {| game.actions := []; game.scripts := [];
     game.objects :=
       [{| object.name := "obj_text";
           object.events :=
             [{| event.main_id := 0; event.sub_id := 0;
                 event.actions := [act_show] |}] |}] |}.

(** A question asked of another instance, negated, with two arguments
    and the relative argument. *)
Definition type_ask : action_type.t :=
  {| action_type.id := 4; action_type.parent := -1;
     action_type.kind := action_type.act_normal;
     action_type.exec := action_type.exec_function;
     action_type.question := true; action_type.relative := true;
     action_type.code := "place_free"; action_type.nargs := 2 |}.
Definition act_ask : action.t :=
  {| action.type := type_ask; action.relative := true;
     action.inv := true; action.target := -2;
     action.args := [Sample.arg_of argument.arg_expr "x";
                     Sample.arg_of argument.arg_expr "y + 1"] |}.

End Sample2.
(** * Properties *)

(** ** Facts about text *)

Module TextFacts.
Import Text.

Lemma sapp_nil_l (s : string) : "" +:+ s = s.
Proof. reflexivity. Qed.

Lemma sapp_cons (a : ascii) (s t : string) : String a s +:+ t = String a (s +:+ t).
Proof. reflexivity. Qed.

Lemma sapp_nil_r (s : string) : s +:+ "" = s.
Proof. induction s as [|a s IHs]; [done|]. rewrite sapp_cons. by f_equal. Qed.

Lemma sapp_assoc (s t u : string) : (s +:+ t) +:+ u = s +:+ t +:+ u.
Proof. induction s as [|a s IHs]; [done|]. rewrite !sapp_cons. by f_equal. Qed.

Lemma all_chars_app (P : ascii → bool) (s t : string) :
  all_chars P (s +:+ t) = all_chars P s && all_chars P t.
Proof.
  induction s as [|a s IHs]; [done|].
  rewrite sapp_cons. cbn [all_chars]. rewrite IHs. by rewrite andb_assoc.
Qed.

Lemma is_not_same (c : ascii) : is_not c c = false.
Proof. unfold is_not. apply bool_decide_eq_false_2. intros H. by apply H. Qed.

Lemma is_not_other (c a : ascii) : a ≠ c → is_not c a = true.
Proof. intros H. unfold is_not. by apply bool_decide_eq_true_2. Qed.

Lemma is_not_true (c a : ascii) : is_not c a = true → a ≠ c.
Proof. unfold is_not. apply bool_decide_eq_true_1. Qed.

Lemma find_none_iff (c : ascii) (s : string) :
  find c s = None ↔ all_chars (is_not c) s = true.
Proof.
  induction s as [|a s IHs]; cbn [find all_chars]; [done|].
  destruct (decide (a = c)) as [->|Hne].
  - rewrite is_not_same. clear IHs. split; intros; discriminate.
  - rewrite is_not_other by done. rewrite andb_true_l, <-IHs. clear IHs.
    destruct (find c s); split; intros; done.
Qed.

(** What [find] returns is the position of the first occurrence. *)
Lemma find_some (c : ascii) (s : string) (pos : nat) :
  find c s = Some pos →
  s = take pos s +:+ String c (drop (pos + 1) s)
  ∧ all_chars (is_not c) (take pos s) = true.
Proof.
  revert pos. induction s as [|a s IHs]; intros pos; cbn [find]; [done|].
  destruct (decide (a = c)) as [->|Hne].
  - intros [= <-]. done.
  - destruct (find c s) as [p|] eqn:Hf; [|done].
    intros [= <-]. destruct (IHs p eq_refl) as [Heq Hall].
    cbn [take drop Nat.add all_chars]. rewrite sapp_cons.
    split; [by f_equal|]. by rewrite is_not_other, Hall.
Qed.

Lemma find_skip (c : ascii) (s t : string) :
  all_chars (is_not c) s = true →
  find c (s +:+ String c t) = Some (String.length s).
Proof.
  induction s as [|a s IHs]; cbn [all_chars].
  - intros _. rewrite sapp_nil_l. cbn [find]. by rewrite decide_True.
  - rewrite andb_true_iff. intros [Ha Hs]. rewrite sapp_cons. cbn [find].
    apply is_not_true in Ha. rewrite decide_False by done. by rewrite IHs.
Qed.

(** Splitting at the last separator: the text after it has none. *)
Lemma app_sep_inj (c : ascii) (s1 s2 d1 d2 : string) :
  all_chars (is_not c) d1 = true →
  all_chars (is_not c) d2 = true →
  s1 +:+ String c d1 = s2 +:+ String c d2 →
  s1 = s2 ∧ d1 = d2.
Proof.
  intros H1 H2. revert s2.
  induction s1 as [|a s1 IHs]; intros [|b s2]; rewrite ?sapp_nil_l, ?sapp_cons.
  - by intros [= ->].
  - intros [= <- ->]. rewrite all_chars_app in H1. cbn [all_chars] in H1.
    rewrite is_not_same in H1. by rewrite andb_false_r in H1.
  - intros [= -> <-]. rewrite all_chars_app in H2. cbn [all_chars] in H2.
    rewrite is_not_same in H2. by rewrite andb_false_r in H2.
  - intros [= -> Heq]. destruct (IHs _ Heq) as [-> ->]. done.
Qed.

(** *** Decimal numerals *)

Lemma underscore_not_digit (d : N) : pretty_N_char d ≠ underscore.
Proof. unfold pretty_N_char. by repeat case_match. Qed.

Lemma pretty_N_go_chars (P : ascii → bool) (x : N) (s : string) :
  (∀ d : N, P (pretty_N_char d) = true) → all_chars P s = true → all_chars P (pretty_N_go x s) = true.
Proof.
  intros HP. revert s. induction (N.lt_wf_0 x) as [x _ IHx]; intros s Hs.
  destruct (decide (x = 0)%N) as [->|Hx]; [by rewrite pretty_N_go_0|].
  rewrite pretty_N_go_step by lia.
  apply IHx; [apply N.div_lt; lia|]. cbn [all_chars]. by rewrite HP, Hs.
Qed.

Lemma pretty_N_chars (P : ascii → bool) (x : N) :
  (∀ d : N, P (pretty_N_char d) = true) → all_chars P (pretty x) = true.
Proof.
  intros HP. unfold pretty, pretty_N. case_decide.
  - pose proof (HP 0%N) as H0. cbn in H0. cbn [all_chars]. by rewrite H0.
  - by apply pretty_N_go_chars.
Qed.

(** A numeral has no character outside the digits and the sign. *)
Lemma pretty_Z_chars (P : ascii → bool) (z : Z) :
  (∀ d : N, P (pretty_N_char d) = true) → P "-"%char = true → all_chars P (pretty z) = true.
Proof.
  intros HP Hm. destruct z as [|p|p]; unfold pretty, pretty_Z.
  - pose proof (HP 0%N) as H0. cbn in H0. cbn [all_chars]. by rewrite H0.
  - apply (pretty_N_chars P (N.pos p) HP).
  - change ("-" +:+ pretty p) with (String "-" (pretty p)).
    cbn [all_chars]. rewrite Hm. apply (pretty_N_chars P (N.pos p) HP).
Qed.

Lemma pretty_Z_no_underscore (z : Z) :
  all_chars (is_not underscore) (pretty z) = true.
Proof.
  apply pretty_Z_chars; [|done].
  intros d. apply is_not_other, underscore_not_digit.
Qed.

Lemma pretty_N_go_length (x : N) (s : string) :
  (String.length s ≤ String.length (pretty_N_go x s))%nat.
Proof.
  revert s. induction (N.lt_wf_0 x) as [x _ IHx]; intros s.
  destruct (decide (x = 0)%N) as [->|Hx]; [by rewrite pretty_N_go_0|].
  rewrite pretty_N_go_step by lia.
  etrans; [|apply IHx, N.div_lt; lia]. simpl. lia.
Qed.

Lemma pretty_Z_nonempty (z : Z) : pretty z ≠ "".
Proof.
  assert (∀ p : positive, pretty p ≠ "") as Hpos.
  { intros p. unfold pretty, pretty_positive, pretty, pretty_N.
    rewrite decide_False by done.
    rewrite pretty_N_go_step by lia. intros Heq.
    pose proof (pretty_N_go_length (N.pos p `div` 10)
      (String (pretty_N_char (N.pos p `mod` 10)) "")) as Hlen.
    rewrite Heq in Hlen. simpl in Hlen. lia. }
  destruct z as [|p|p]; unfold pretty, pretty_Z; [done|apply Hpos|done].
Qed.

End TextFacts.

(** ** Rendering arguments *)

Module RenderFacts.
Import Text Render TextFacts.

Lemma escape_quotes_done (fuel : nat) (val : string) :
  find dquote val = None → escape_quotes (S fuel) val = Done val.
Proof. intros H. cbn [escape_quotes]. by rewrite H. Qed.

(** Replacing a double quote by [escaped_quote] leaves a double quote at
    the same place, so the loop never sees a text without one. *)
Lemma replace_keeps_quote (val : string) (pos : nat) :
  find dquote val = Some pos →
  find dquote (replace pos 1 escaped_quote val) = Some pos.
Proof.
  intros Hf. destruct (find_some _ _ _ Hf) as [Hval Hall].
  unfold replace, escaped_quote. rewrite sapp_cons.
  rewrite (find_skip dquote _ _ Hall). f_equal.
  clear Hval Hall. revert pos Hf.
  induction val as [|a val IHv]; intros pos; cbn [find]; [done|].
  destruct (decide (a = dquote)); [by intros [= <-]|].
  destruct (find dquote val) as [p|]; [|done].
  intros [= <-]. cbn [take String.length]. f_equal. by apply IHv.
Qed.

Lemma escape_quotes_diverges (fuel : nat) (val : string) (pos : nat) :
  find dquote val = Some pos → escape_quotes fuel val = Diverges.
Proof.
  revert val. induction fuel as [|fuel IHf]; intros val Hf; [done|].
  cbn [escape_quotes]. rewrite Hf. apply IHf. by apply replace_keeps_quote.
Qed.

Lemma render_string_done (fuel : nat) (v : string) :
  Renderable.quote_free v = true →
  render_string (S fuel) v = Done (String dquote v +:+ String dquote "").
Proof.
  intros H. unfold render_string.
  rewrite escape_quotes_done; [done|]. by apply find_none_iff.
Qed.

(** An argument that passes [argument_ok] renders with any fuel. *)
Lemma render_argument_done (fuel : nat) (arg : argument.t) :
  Renderable.argument_ok arg = true →
  ∃ text, render_argument (S fuel) arg = Done text.
Proof.
  unfold Renderable.argument_ok, render_argument.
  destruct (argument.kind arg); intros Hok; eauto.
  - rewrite render_string_done by done. eauto.
  - destruct (bool_decide _ || bool_decide _) eqn:Hq; [eauto|].
    rewrite render_string_done by done. eauto.
Qed.

(** C10: an argument of boolean kind renders as [1] when the first
    character of its text is the digit zero and as [0] otherwise; so the
    text [0] gives [1] and the text [1] gives [0]. *)
Theorem render_bool_argument (fuel : nat) (arg : argument.t) :
  argument.kind arg = argument.arg_bool →
  (first_char (argument.val arg) = "0"%char →
     render_argument fuel arg = Done "1")
  ∧ (first_char (argument.val arg) ≠ "0"%char →
     render_argument fuel arg = Done "0")
  ∧ (argument.val arg = "0" → render_argument fuel arg = Done "1")
  ∧ (argument.val arg = "1" → render_argument fuel arg = Done "0").
Proof.
  intros Hk. unfold render_argument. rewrite Hk. repeat split.
  - intros H. by rewrite bool_decide_eq_true_2.
  - intros H. by rewrite bool_decide_eq_false_2.
  - by intros ->.
  - by intros ->.
Qed.

Lemma render_bool_argument_witness :
  let arg := {| argument.kind := argument.arg_bool;
                argument.val := "0"; argument.resource := 0 |} in
  argument.kind arg = argument.arg_bool
  ∧ render_argument 0 arg = Done "1".
Proof.
  split; [reflexivity|].
  apply (render_bool_argument 0
    {| argument.kind := argument.arg_bool;
       argument.val := "0"; argument.resource := 0 |}); reflexivity.
Defined.

End RenderFacts.

(** ** The names of the compiled units *)

Module NameFacts.
Import Text TextFacts Linker.

Lemma sep_app_inj (s1 s2 : string) (z1 z2 : Z) :
  s1 +:+ "_" +:+ pretty z1 = s2 +:+ "_" +:+ pretty z2 →
  s1 = s2 ∧ z1 = z2.
Proof.
  intros Heq.
  apply (app_sep_inj underscore) in Heq as [-> Hz];
    [|apply pretty_Z_no_underscore..].
  split; [done|]. by apply (inj pretty).
Qed.

(** The library names are equal only for equal ids and for parents that
    are equal or both absent. *)
Lemma library_name_eq (t1 t2 : action_type.t) :
  library_name t1 = library_name t2 →
  action_type.id t1 = action_type.id t2
  ∧ (action_type.parent t1 = action_type.parent t2
     ∨ (action_type.parent t1 ≤ -1 ∧ action_type.parent t2 ≤ -1)).
Proof.
  unfold library_name. intros Heq.
  assert (∀ s z, (if decide (-1 < z) then "action_lib" +:+ pretty z
                  else "action_lib") +:+ s
                 = "action_lib" +:+ (if decide (-1 < z) then pretty z else "")
                   +:+ s) as Hshape.
  { intros s z. destruct (decide (-1 < z)); [by rewrite sapp_assoc|done]. }
  rewrite !Hshape in Heq. apply (inj (String.app "action_lib")) in Heq.
  rewrite <-!sapp_assoc in Heq. rewrite !(sapp_assoc _ "_") in Heq.
  apply sep_app_inj in Heq as [Hp Hid]. split; [done|].
  repeat case_decide.
  - left. by apply (inj pretty).
  - by destruct (pretty_Z_nonempty (action_type.parent t1)).
  - by destruct (pretty_Z_nonempty (action_type.parent t2)).
  - right. lia.
Qed.

Lemma library_name_absent (ty : action_type.t) :
  action_type.parent ty ≤ -1 →
  library_name ty = "action_lib_" +:+ pretty (action_type.id ty).
Proof. intros H. unfold library_name. by rewrite decide_False by lia. Qed.

Lemma put_callee_library (ty : action_type.t) (code : string) :
  action_type.exec ty = action_type.exec_code →
  put_callee ty code = code +:+ library_name ty.
Proof.
  intros He. unfold put_callee, library_name. rewrite decide_True by done.
  case_decide; by rewrite !sapp_assoc.
Qed.

Lemma code_action_name_eq (o1 o2 : object.t) (e1 e2 : event.t) (a1 a2 : nat) :
  code_action_name o1 e1 a1 = code_action_name o2 e2 a2 →
  object.name o1 = object.name o2
  ∧ event.main_id e1 = event.main_id e2
  ∧ event.sub_id e1 = event.sub_id e2
  ∧ a1 = a2.
Proof.
  unfold code_action_name. intros Heq.
  assert (∀ n m s a : string,
    n +:+ "_" +:+ m +:+ "_" +:+ s +:+ "_" +:+ a
    = ((n +:+ "_" +:+ m) +:+ "_" +:+ s) +:+ "_" +:+ a) as Hshape.
  { intros. by rewrite !sapp_assoc. }
  rewrite !Hshape in Heq.
  apply sep_app_inj in Heq as [Heq Ha].
  apply sep_app_inj in Heq as [Heq Hs].
  apply sep_app_inj in Heq as [Ho Hm].
  repeat split; [done..|lia].
Qed.

End NameFacts.

(** ** The unit compiler *)

Module UnitFacts.
Import Text TextFacts Linker Units.

Lemma report_errors (msgs : list string) (e : error_stream.t) :
  error_stream.errors (error_stream.report msgs e)
  = error_stream.errors e ++ map (λ msg, (error_stream.context e, msg)) msgs
  ∧ error_stream.context (error_stream.report msgs e) = error_stream.context e.
Proof.
  unfold error_stream.report. revert e.
  induction msgs as [|msg msgs IHm]; intros e; cbn [foldl map].
  - by rewrite app_nil_r.
  - destruct (IHm (error_stream.error msg e)) as [-> ->].
    cbn. by rewrite <-app_assoc.
Qed.

Lemma count_report (msgs : list string) (e : error_stream.t) :
  error_stream.count (error_stream.report msgs e)
  = (error_stream.count e + length msgs)%nat.
Proof.
  unfold error_stream.count. rewrite (proj1 (report_errors msgs e)).
  by rewrite length_app, length_map.
Qed.

Section facts.
Context {node llvm_module : Type}.
Context `{!Compiler node, !Backend node llvm_module}.
Implicit Types st : Linker.t node llvm_module.
Implicit Types u : Spec.unit_t.

(** The sink when the parse of a unit is over. *)
Lemma compile_cases st u :
  (error_stream.count (errors st) + length (getprogram (Spec.text u)).2
     = 0)%nat
  ∧ compiler (compile st u) = compiler st ++ [call_of u]
  ∧ (error_stream.count (errors (compile st u))
     = length (codegen_errors (compiler st)
         (getprogram (Spec.text u)).1 (Spec.name u) (Spec.args u)
         (Spec.is_script u)))%nat
  ∨ (0 < error_stream.count (errors st)
         + length (getprogram (Spec.text u)).2)%nat
  ∧ compiler (compile st u) = compiler st
  ∧ (error_stream.count (errors (compile st u))
     = error_stream.count (errors st)
       + length (getprogram (Spec.text u)).2)%nat.
Proof.
  unfold compile, add_function, call_of.
  destruct (getprogram (Spec.text u)) as [program syntax_errors].
  cbn [fst snd]. case_decide as Hc; cbn in Hc; rewrite count_report in Hc.
  - right. cbn. rewrite count_report. cbn. done.
  - left. cbn. rewrite !count_report. cbn.
    unfold error_stream.count in *. cbn in *. split_and!; [lia|done|lia].
Qed.

Lemma compile_all_app st us vs :
  compile_all st (us ++ vs) = compile_all (compile_all st us) vs.
Proof. apply foldl_app. Qed.

Lemma compile_all_cons st u us :
  compile_all st (u :: us) = compile_all (compile st u) us.
Proof. done. Qed.

Lemma compile_grows st u : grows st (compile st u).
Proof.
  assert (source (compile st u) = source st
          ∧ output (compile st u) = output st
          ∧ runtime (compile st u) = runtime st
          ∧ files (compile st u) = files st) as (?&?&?&?).
  { unfold compile, add_function.
    destruct (getprogram (Spec.text u)). by case_decide. }
  unfold grows. split_and!; [done..| |].
  - destruct (compile_cases st u) as [(?&?&?)|(?&?&?)]; lia.
  - destruct (compile_cases st u) as [(?&->&?)|(?&->&?)].
    + by exists [call_of u].
    + exists []. by rewrite app_nil_r.
Qed.

Lemma grows_refl st : grows st st.
Proof.
  unfold grows. split_and!; [done..|]. exists []. by rewrite app_nil_r.
Qed.

Lemma grows_trans st1 st2 st3 : grows st1 st2 → grows st2 st3 → grows st1 st3.
Proof.
  intros (?&?&?&?&?&a1&?&?) (?&?&?&?&?&a2&?&?).
  unfold grows. split_and!; [congruence..|lia|].
  exists (a1 ++ a2). split; [|by rewrite forallb_app; apply andb_true_iff].
  rewrite app_assoc. congruence.
Qed.

Lemma compile_all_grows st us : grows st (compile_all st us).
Proof.
  revert st. induction us as [|u us IHus]; intros st; [apply grows_refl|].
  eapply grows_trans; [apply compile_grows|apply IHus].
Qed.

(** Once the sink holds an error, no unit is compiled any more. *)
Lemma compile_all_stuck st us :
  (0 < error_stream.count (errors st))%nat →
  compiler (compile_all st us) = compiler st.
Proof.
  revert st. induction us as [|u us IHus]; intros st Hc; [done|].
  rewrite compile_all_cons.
  destruct (compile_cases st u) as [(?&?&?)|(?&Hsame&Hcount)]; [lia|].
  rewrite IHus, Hsame; [done|lia].
Qed.

(** While the sink is empty, every unit is compiled. *)
Lemma compile_all_clean st us :
  error_stream.count (errors (compile_all st us)) = 0%nat →
  compiler (compile_all st us) = compiler st ++ map call_of us
  ∧ error_stream.count (errors st) = 0%nat.
Proof.
  revert st. induction us as [|u us IHus]; intros st Hc.
  - cbn. by rewrite app_nil_r.
  - rewrite compile_all_cons in *.
    destruct (IHus _ Hc) as [-> Hu].
    destruct (compile_cases st u) as [(?&->&?)|(?&?&?)]; [|lia].
    cbn [map]. rewrite <-app_assoc. split; [done|lia].
Qed.

(** A unit whose parse reports an error is abandoned. *)
Lemma compile_syntax_error st u :
  (getprogram (Spec.text u)).2 ≠ [] →
  compiler (compile st u) = compiler st
  ∧ (0 < error_stream.count (errors (compile st u)))%nat.
Proof.
  intros Hu.
  assert (0 < length (getprogram (Spec.text u)).2)%nat.
  { destruct (getprogram (Spec.text u)).2; [done|simpl; lia]. }
  destruct (compile_cases st u) as [(?&?&?)|(?&?&?)]; [lia|split; [done|lia]].
Qed.
End facts.
End UnitFacts.

(** ** The three compilation phases *)

Module PhaseFacts.
Import Text TextFacts Render RenderFacts Linker Units UnitFacts.

Section facts.
Context {node llvm_module : Type}.
Context `{!Compiler node, !Backend node llvm_module}.
Implicit Types st : Linker.t node llvm_module.

(** *** Libraries *)

Lemma build_libraries_units st :
  build_libraries st
  = compile_all st
      (map library_unit
         (filter (λ ty, action_type.exec ty = action_type.exec_code)
            (game.actions (source st)))).
Proof.
  unfold build_libraries. generalize (game.actions (source st)) as tys.
  intros tys. revert st.
  induction tys as [|ty tys IHt]; intros st; [done|].
  cbn [foldl]. rewrite IHt, filter_cons. unfold build_library at 1.
  destruct (decide (action_type.exec ty = action_type.exec_code)) as [He|He].
  - rewrite decide_False by (intros Hn; by apply Hn). done.
  - by rewrite decide_True.
Qed.

Lemma build_libraries_grows st : grows st (build_libraries st).
Proof. rewrite build_libraries_units. apply compile_all_grows. Qed.

(** *** Scripts *)

Lemma registered_state st ss :
  registered st ss
  = with_compiler
      (compiler st ++ map (λ s, register_script_call (script.name s)) ss) st.
Proof.
  unfold registered. revert st.
  induction ss as [|s ss IHs]; intros st; cbn [foldl map].
  - rewrite app_nil_r. by destruct st.
  - rewrite IHs. unfold register_script, with_compiler. cbn.
    by rewrite <-app_assoc.
Qed.

Lemma build_scripts_units st :
  build_scripts st
  = compile_all (registered st (game.scripts (source st)))
      (map script_unit (game.scripts (source st))).
Proof.
  unfold build_scripts. fold (registered st (game.scripts (source st))).
  rewrite registered_state. cbn [source with_compiler].
  generalize (with_compiler
    (compiler st ++
       map (λ s, register_script_call (script.name s))
         (game.scripts (source st))) st) as st1.
  generalize (game.scripts (source st)) as ss.
  intros ss. induction ss as [|s ss IHs]; intros st1; [done|].
  cbn [foldl map compile_all]. by rewrite IHs.
Qed.

(** *** Objects *)

Lemma put_args_done fuel n args code :
  forallb Renderable.argument_ok args = true →
  ∃ code', put_args (S fuel) n args code = Done code'.
Proof.
  revert n code. induction args as [|arg args IHa]; intros n code Hok.
  - by eexists.
  - cbn [forallb] in Hok. apply andb_true_iff in Hok as [Harg Hargs].
    cbn [put_args].
    destruct (render_argument_done fuel arg Harg) as [text ->].
    cbn. by apply IHa.
Qed.

Lemma put_normal_done fuel act code :
  forallb Renderable.argument_ok (action.args act) = true →
  ∃ code', put_normal (S fuel) act code = Done code'.
Proof.
  intros Hok. unfold put_normal.
  edestruct (put_args_done fuel 0 (action.args act)) as [code' ->]; [done|].
  cbn. by eexists.
Qed.

Lemma arg_val_done act n :
  (n < length (action.args act))%nat → ∃ v, arg_val act n = Done v.
Proof.
  intros Hn. unfold arg_val.
  destruct (lookup_lt_is_Some_2 (action.args act) n Hn) as [arg ->].
  by eexists.
Qed.

Lemma put_action_grows fuel obj evt a act st code st' code' :
  put_action fuel obj evt a act st code = Done (st', code') → grows st st'.
Proof.
  unfold put_action. intros Hput.
  destruct (action_type.kind (action.type act));
    repeat (match type of Hput with
            | context [arg_val ?act ?n] => destruct (arg_val act n)
            | context [decide ?P] => destruct (decide P)
            | context [put_normal ?f ?a ?c] => destruct (put_normal f a c)
            end; cbn in Hput; try done);
    simplify_eq; try apply grows_refl.
  apply (compile_grows st
    {| Spec.text := _; Spec.name := _; Spec.args := 0;
       Spec.is_script := false |}).
Qed.

Lemma put_action_done fuel obj evt a act st code :
  Renderable.action_ok act = true →
  ∃ st' code', put_action (S fuel) obj evt a act st code = Done (st', code').
Proof.
  unfold Renderable.action_ok, put_action. intros Hok.
  destruct (action_type.kind (action.type act)); try by do 2 eexists.
  - case_decide as He; [by do 2 eexists|].
    rewrite bool_decide_eq_false_2 in Hok by done.
    destruct (put_normal_done fuel act code Hok) as [code' ->].
    by do 2 eexists.
  - apply bool_decide_eq_true_1 in Hok.
    destruct (arg_val_done act 0) as [v0 ->]; [lia|]. by do 2 eexists.
  - apply bool_decide_eq_true_1 in Hok.
    destruct (arg_val_done act 0) as [v0 ->]; [lia|].
    destruct (arg_val_done act 1) as [v1 ->]; [lia|]. by do 2 eexists.
  - apply bool_decide_eq_true_1 in Hok.
    destruct (arg_val_done act 0) as [v0 ->]; [lia|]. by do 2 eexists.
Qed.

Lemma put_actions_grows fuel obj evt a acts st code st' code' :
  put_actions fuel obj evt a acts st code = Done (st', code') → grows st st'.
Proof.
  revert a st code. induction acts as [|act acts IHa]; intros a st code.
  - intros [= <- <-]. apply grows_refl.
  - cbn [put_actions].
    destruct (put_action fuel obj evt a act st code) as [[st1 code1]| |]
      eqn:Hact; [|done..].
    cbn. intros Hrest. eapply grows_trans; [|by eapply IHa].
    by eapply put_action_grows.
Qed.

Lemma put_actions_done fuel obj evt a acts st code :
  forallb Renderable.action_ok acts = true →
  ∃ st' code',
    put_actions (S fuel) obj evt a acts st code = Done (st', code').
Proof.
  revert a st code. induction acts as [|act acts IHa]; intros a st code Hok.
  - by do 2 eexists.
  - cbn [forallb] in Hok. apply andb_true_iff in Hok as [Hact Hacts].
    cbn [put_actions].
    destruct (put_action_done fuel obj evt a act st code Hact)
      as (st1 & code1 & ->).
    cbn. by apply IHa.
Qed.

Lemma build_event_grows fuel obj st evt st' :
  build_event fuel obj st evt = Done st' → grows st st'.
Proof.
  unfold build_event.
  destruct (put_actions fuel obj evt 0 (event.actions evt) st "")
    as [[st1 c]| |] eqn:Hacts; [|done..].
  cbn. intros [= <-]. eapply grows_trans; [by eapply put_actions_grows|].
  apply (compile_grows st1
    {| Spec.text := c; Spec.name := _; Spec.args := 0;
       Spec.is_script := false |}).
Qed.

Lemma build_event_done fuel obj st evt :
  Renderable.event_ok evt = true →
  ∃ st', build_event (S fuel) obj st evt = Done st'.
Proof.
  intros Hok. unfold build_event.
  destruct (put_actions_done fuel obj evt 0 (event.actions evt) st "" Hok)
    as (st1 & c & ->).
  by eexists.
Qed.

Lemma build_events_grows fuel obj evts st st' :
  build_events fuel obj evts st = Done st' → grows st st'.
Proof.
  revert st. induction evts as [|evt evts IHe]; intros st.
  - intros [= <-]. apply grows_refl.
  - cbn [build_events].
    destruct (build_event fuel obj st evt) as [st1| |] eqn:Hevt; [|done..].
    cbn. intros Hrest. eapply grows_trans; [|by eapply IHe].
    by eapply build_event_grows.
Qed.

Lemma build_events_done fuel obj evts st :
  forallb Renderable.event_ok evts = true →
  ∃ st', build_events (S fuel) obj evts st = Done st'.
Proof.
  revert st. induction evts as [|evt evts IHe]; intros st Hok.
  - by eexists.
  - cbn [forallb] in Hok. apply andb_true_iff in Hok as [Hevt Hevts].
    cbn [build_events].
    destruct (build_event_done fuel obj st evt Hevt) as [st1 ->].
    cbn. by apply IHe.
Qed.

Lemma build_objects_from_grows fuel objs st st' :
  build_objects_from fuel objs st = Done st' → grows st st'.
Proof.
  revert st. induction objs as [|obj objs IHo]; intros st.
  - intros [= <-]. apply grows_refl.
  - cbn [build_objects_from].
    destruct (build_events fuel obj (object.events obj) st) as [st1| |]
      eqn:Hevts; [|done..].
    cbn. intros Hrest. eapply grows_trans; [|by eapply IHo].
    by eapply build_events_grows.
Qed.

Lemma build_objects_grows fuel st st' :
  build_objects fuel st = Done st' → grows st st'.
Proof. apply build_objects_from_grows. Qed.

(** A renderable project gets through the object phase, with any
    fuel. *)
Lemma build_objects_done fuel st :
  Renderable.game_ok (source st) = true →
  ∃ st', build_objects (S fuel) st = Done st'.
Proof.
  unfold build_objects, Renderable.game_ok.
  generalize (game.objects (source st)) as objs. intros objs. revert st.
  induction objs as [|obj objs IHo]; intros st Hok.
  - by eexists.
  - cbn [forallb] in Hok. apply andb_true_iff in Hok as [Hobj Hobjs].
    cbn [build_objects_from].
    destruct (build_events_done fuel obj (object.events obj) st Hobj)
      as [st1 ->].
    cbn. by apply IHo.
Qed.
End facts.
End PhaseFacts.

(** ** Errors and the order of the build *)

Module BuildFacts.
Import Text TextFacts Linker Units UnitFacts PhaseFacts.

Section facts.
Context {node llvm_module : Type}.
Context `{!Compiler node, !Backend node llvm_module}.
Implicit Types st : Linker.t node llvm_module.

Lemma progress_grows pct label st :
  grows st (with_errors (error_stream.progress pct label) st).
Proof.
  unfold grows. split_and!; [done..|]. exists []. by rewrite app_nil_r.
Qed.

Lemma registered_count st ss :
  error_stream.count (errors (registered st ss))
  = error_stream.count (errors st)
  ∧ source (registered st ss) = source st
  ∧ files (registered st ss) = files st.
Proof. by rewrite registered_state. Qed.


Lemma follows_trans st1 st2 st3 :
  follows st1 st2 → follows st2 st3 → follows st1 st3.
Proof.
  intros (?&?&?) (?&?&?). unfold follows. split_and!; [congruence..|lia].
Qed.

Lemma grows_follows st st' : grows st st' → follows st st'.
Proof. intros (?&?&?&?&?&?). by unfold follows. Qed.

Lemma progress_follows pct label st :
  follows st (with_errors (error_stream.progress pct label) st).
Proof. apply grows_follows, progress_grows. Qed.

Lemma registered_follows st ss : follows st (registered st ss).
Proof. rewrite registered_state. by unfold follows. Qed.

Lemma build_scripts_follows st : follows st (build_scripts st).
Proof.
  rewrite build_scripts_units.
  eapply follows_trans; [apply registered_follows|].
  apply grows_follows, compile_all_grows.
Qed.

Lemma before_objects_follows st : follows st (before_objects st).
Proof.
  unfold before_objects.
  eapply follows_trans; [apply progress_follows|].
  eapply follows_trans; [apply grows_follows, build_libraries_grows|].
  eapply follows_trans; [apply progress_follows|].
  eapply follows_trans; [apply build_scripts_follows|].
  apply progress_follows.
Qed.

(** A script that does not parse leaves an error in the sink. *)
Lemma build_scripts_syntax_error st s :
  s ∈ game.scripts (source st) →
  (getprogram (script.code s)).2 ≠ [] →
  (0 < error_stream.count (errors (build_scripts st)))%nat.
Proof.
  intros Hs Hparse. rewrite build_scripts_units.
  apply list_elem_of_split in Hs as (pre & post & ->).
  rewrite map_app. cbn [map]. rewrite compile_all_app, compile_all_cons.
  set (stp := compile_all _ (map script_unit pre)).
  destruct (compile_syntax_error stp (script_unit s) Hparse) as [_ Hpos].
  destruct (compile_all_grows (compile stp (script_unit s))
    (map script_unit post)) as (_&_&_&_&Hmono&_).
  lia.
Qed.

Lemma before_objects_syntax_error st s :
  s ∈ game.scripts (source st) →
  (getprogram (script.code s)).2 ≠ [] →
  (0 < error_stream.count (errors (before_objects st)))%nat.
Proof.
  intros Hs Hparse. unfold before_objects.
  set (st1 := with_errors (error_stream.progress 30 _) _).
  assert (follows st st1) as (Hsrc&_&_).
  { subst st1.
    eapply follows_trans; [apply progress_follows|].
    eapply follows_trans; [apply grows_follows, build_libraries_grows|].
    apply progress_follows. }
  rewrite <-Hsrc in Hs.
  pose proof (build_scripts_syntax_error st1 s Hs Hparse) as Hpos.
  destruct (progress_follows 40 "compiling objects" (build_scripts st1))
    as (_&_&Hle).
  lia.
Qed.

Lemma build_stops_on_errors fuel target debug st st3 :
  build_objects fuel (before_objects st) = Done st3 →
  (0 < error_stream.count (errors st3))%nat →
  build fuel target debug st = Done (false, st3).
Proof.
  intros Hobj Hpos. unfold build. fold (before_objects st).
  rewrite Hobj. cbn. by rewrite decide_True.
Qed.
End facts.
End BuildFacts.

(** ** Syntax errors and the order of compilation *)

Module BuildClaims.
Import Text TextFacts Linker Units UnitFacts PhaseFacts BuildFacts.

Section claims.
Context {node llvm_module : Type}.
Context `{!Compiler node, !Backend node llvm_module}.
Implicit Types st : Linker.t node llvm_module.

(** C1, as amended.  In a sequence of units handed to [add_function], a
    unit whose parse reports errors is abandoned with no function added,
    and no unit after it has its function added either, since the test
    is on the count of all errors recorded so far; the units before it
    are all added when the sink is still empty after them; and the sink
    ends with at least one error.  In a build of a renderable project
    with a script that does not parse, [build] returns failure with an
    error count of at least one and writes no file. *)
Theorem syntax_error_stops_codegen :
  (∀ st (pre post : list Spec.unit_t) (u : Spec.unit_t),
     (getprogram (Spec.text u)).2 ≠ [] →
     compiler (compile (compile_all st pre) u) = compiler (compile_all st pre)
     ∧ compiler (compile_all st (pre ++ u :: post))
       = compiler (compile_all st pre)
     ∧ (error_stream.count (errors (compile_all st pre)) = 0%nat →
        compiler (compile_all st pre) = compiler st ++ map call_of pre)
     ∧ (1 ≤ error_stream.count
              (errors (compile_all st (pre ++ u :: post))))%nat)
  ∧ (∀ (fuel : nat) (target : string) (debug : bool) st (s : script.t),
       Renderable.game_ok (source st) = true →
       s ∈ game.scripts (source st) →
       (getprogram (script.code s)).2 ≠ [] →
       ∃ st',
         build (S fuel) target debug st = Done (false, st')
         ∧ (1 ≤ error_stream.count (errors st'))%nat
         ∧ files st' = files st).
Proof.
  split.
  - intros st pre post u Hparse.
    destruct (compile_syntax_error (compile_all st pre) u Hparse)
      as [Hsame Hpos].
    rewrite compile_all_app, compile_all_cons.
    split_and!.
    + done.
    + by rewrite compile_all_stuck.
    + intros Hclean. by destruct (compile_all_clean st pre Hclean).
    + destruct (compile_all_grows (compile (compile_all st pre) u) post)
        as (_&_&_&_&Hmono&_).
      lia.
  - intros fuel target debug st s Hok Hs Hparse.
    destruct (before_objects_follows st) as (Hsrc&Hfiles&_).
    destruct (build_objects_done fuel (before_objects st)) as [st3 Hobj];
      [by rewrite Hsrc|].
    pose proof (before_objects_syntax_error st s Hs Hparse) as Hpos.
    destruct (build_objects_grows _ _ _ Hobj) as (_&_&_&Hf3&Hmono&_).
    exists st3. split_and!.
    + apply build_stops_on_errors; [done|lia].
    + lia.
    + congruence.
Qed.

End claims.
End BuildClaims.

Module BuildExamples.
Import Text Linker Units BuildClaims.

(** C1 fails as the specification states it: the second unit parses, yet
    no function is added for it, because the first unit left an error in
    the sink. *)
Lemma unit_after_syntax_error_not_added :
  (getprogram (Spec.text Toy.bad_unit)).2 ≠ []
  ∧ (getprogram (Spec.text Toy.good_unit)).2 = []
  ∧ compiler (compile_all Toy.linker0 [Toy.bad_unit; Toy.good_unit]) = [].
Proof. split_and!; [discriminate|reflexivity|reflexivity]. Qed.

Lemma syntax_error_stops_codegen_witness :
  ((getprogram (Spec.text Toy.bad_unit)).2 ≠ []
   ∧ compiler (compile_all Toy.linker0
                 ([Toy.first_unit] ++ Toy.bad_unit :: [Toy.good_unit]))
     = compiler (compile_all Toy.linker0 [Toy.first_unit]))
  ∧ (Renderable.game_ok (source (Toy.linker_of Toy.broken_game ∅)) = true
     ∧ Toy.script_bad ∈ game.scripts (source (Toy.linker_of Toy.broken_game ∅))
     ∧ ∃ st', build 1 "game.bc" false (Toy.linker_of Toy.broken_game ∅)
              = Done (false, st')
              ∧ (1 ≤ error_stream.count (errors st'))%nat
              ∧ files st' = files (Toy.linker_of Toy.broken_game ∅)).
Proof.
  split.
  - split; [discriminate|].
    apply (proj1 syntax_error_stops_codegen Toy.linker0
             [Toy.first_unit] [Toy.good_unit] Toy.bad_unit).
    discriminate.
  - split; [reflexivity|]. split; [apply list_elem_of_here|].
    apply (proj2 syntax_error_stops_codegen 0%nat "game.bc" false
             (Toy.linker_of Toy.broken_game ∅) Toy.script_bad).
    + reflexivity.
    + apply list_elem_of_here.
    + discriminate.
Defined.



(** Without the first pass the forward call is refused: compiled before
    any name is registered, script [A] leaves an error in the sink. *)
Example forward_call_needs_registration :
  error_stream.count
    (errors (compile (Toy.linker_of Toy.forward_game ∅)
               (script_unit Toy.script_A))) = 1%nat.
Proof. reflexivity. Qed.

End BuildExamples.

(** ** Library names *)

Module LibraryClaims.
Import Text TextFacts Linker NameFacts.

(** C3 fails as stated: two descriptors with distinct [(parent, id)] pairs
    and one and the same library name. *)
Lemma library_names_collide :
  (action_type.parent Toy.lib_a, action_type.id Toy.lib_a)
    ≠ (action_type.parent Toy.lib_b, action_type.id Toy.lib_b)
  ∧ library_name Toy.lib_a = library_name Toy.lib_b.
Proof. split; [discriminate|reflexivity]. Qed.

(** C3, as amended.  Two library descriptors get distinct names when
    their ids differ, or when their parents differ and at least one of
    the parents is above -1 (every parent at or below -1 is left out of
    the name); and for a type that executes code the callee the
    synthesizer writes is the name the library builder formed. *)
Theorem library_names_distinct (t1 t2 ty : action_type.t) (code : string) :
  action_type.id t1 ≠ action_type.id t2
  ∨ (action_type.parent t1 ≠ action_type.parent t2
     ∧ (-1 < action_type.parent t1 ∨ -1 < action_type.parent t2)) →
  action_type.exec ty = action_type.exec_code →
  library_name t1 ≠ library_name t2
  ∧ put_callee ty code = code +:+ library_name ty.
Proof.
  intros Hdiff Hexec. split; [|by apply put_callee_library].
  intros Heq. apply library_name_eq in Heq as [Hid Hparent]. lia.
Qed.

Lemma library_names_distinct_witness :
  (action_type.parent Toy.lib_a ≠ action_type.parent Toy.lib_c
   ∧ -1 < action_type.parent Toy.lib_c)
  ∧ library_name Toy.lib_a ≠ library_name Toy.lib_c
  ∧ put_callee Toy.lib_c "if (" = "if (" +:+ library_name Toy.lib_c.
Proof.
  split; [split; [discriminate|reflexivity]|].
  apply (library_names_distinct Toy.lib_a Toy.lib_c Toy.lib_c "if (").
  - right. split; [discriminate|]. right. reflexivity.
  - reflexivity.
Defined.

End LibraryClaims.

(** ** Code actions *)

Module CodeActionClaims.
Import Text TextFacts Linker Units UnitFacts NameFacts.

Section claims.
Context {node llvm_module : Type}.
Context `{!Compiler node, !Backend node llvm_module}.
Implicit Types st : Linker.t node llvm_module.

Lemma put_actions_app fuel obj evt a pre post st code :
  put_actions fuel obj evt a (pre ++ post) st code
  = '(st1, code1) ← put_actions fuel obj evt a pre st code;
    put_actions fuel obj evt (a + length pre) post st1 code1.
Proof.
  revert a st code. induction pre as [|act pre IHp]; intros a st code.
  - cbn. by rewrite Nat.add_0_r.
  - cbn [app put_actions length].
    destruct (put_action fuel obj evt a act st code) as [[st1 code1]| |];
      [|done..].
    cbn. rewrite IHp. by rewrite Nat.add_succ_comm.
Qed.

(** C9, as amended.  In the loop over the actions of an event, a code
    action at index [a] makes one call of the unit compiler, for the
    text of its first argument under the name built from the object's
    name, the event's two ids and [a], with zero arguments, and appends
    a call of that name without arguments to the text of the event,
    whatever becomes of the unit.  The unit's function is added, once
    and with zero arguments, when the sink holds no error before the
    call and the text parses; when the sink holds an error or the text
    does not parse, no function is added and the sink holds an error
    afterwards.  The names built for two code actions are distinct when
    the object names, the event ids or the indices differ. *)
Theorem code_action_unit :
  (∀ fuel obj evt (pre post : list action.t) act arg st code,
     action_type.kind (action.type act) = action_type.act_code →
     action.args act !! 0%nat = Some arg →
     put_actions fuel obj evt 0 (pre ++ act :: post) st code
     = '(st1, code1) ← put_actions fuel obj evt 0 pre st code;
       put_actions fuel obj evt (S (length pre)) post
         (add_function (argument.val arg)
            (code_action_name obj evt (length pre)) 0 false st1)
         (code1 +:+ code_action_name obj evt (length pre) +:+ "()" +:+ nl))
  ∧ (∀ fuel obj evt a act arg st code,
       action_type.kind (action.type act) = action_type.act_code →
       action.args act !! 0%nat = Some arg →
       ∃ st',
         put_action fuel obj evt a act st code
         = Done (st', code +:+ code_action_name obj evt a +:+ "()" +:+ nl)
         ∧ (error_stream.count (errors st) = 0%nat →
            (getprogram (argument.val arg)).2 = [] →
            compiler st'
            = compiler st
              ++ [add_function_call (getprogram (argument.val arg)).1
                    (code_action_name obj evt a) 0 false])
         ∧ ((0 < error_stream.count (errors st))%nat
            ∨ (getprogram (argument.val arg)).2 ≠ [] →
            compiler st' = compiler st
            ∧ (0 < error_stream.count (errors st'))%nat))
  ∧ (∀ (o1 o2 : object.t) (e1 e2 : event.t) (a1 a2 : nat),
       (object.name o1, event.main_id e1, event.sub_id e1, a1)
         ≠ (object.name o2, event.main_id e2, event.sub_id e2, a2) →
       code_action_name o1 e1 a1 ≠ code_action_name o2 e2 a2).
Proof.
  split_and!.
  - intros fuel obj evt pre post act arg st code Hkind Harg.
    rewrite put_actions_app.
    destruct (put_actions fuel obj evt 0 pre st code) as [[st1 code1]| |];
      [|done..].
    cbn [mbind outcome_bind put_actions Nat.add].
    unfold put_action, arg_val. rewrite Hkind, Harg. done.
  - intros fuel obj evt a act arg st code Hkind Harg.
    eexists. split.
    { unfold put_action, arg_val. rewrite Hkind, Harg. done. }
    set (u := {| Spec.text := argument.val arg;
                 Spec.name := code_action_name obj evt a;
                 Spec.args := 0; Spec.is_script := false |}).
    change (add_function (argument.val arg) (code_action_name obj evt a)
              0 false st) with (compile st u).
    destruct (compile_cases st u) as [(Hzero&Hlog&_)|(Hpos&Hlog&Hcount)];
      cbn [Spec.text u] in *.
    + split; [done|]. intros [Herr|Hparse]; [lia|].
      destruct (getprogram (argument.val arg)).2; [done|cbn in Hzero; lia].
    + split.
      * intros Hclean Hparse. rewrite Hparse in Hpos. cbn in Hpos. lia.
      * intros _. split; [done|lia].
  - intros o1 o2 e1 e2 a1 a2 Hdiff Heq. apply Hdiff.
    apply code_action_name_eq in Heq as (->&->&->&->). done.
Qed.
End claims.

(** C9 fails as the specification states it: the call of the unit is
    written into the text of the event, yet no function is added, for a
    code action whose text does not parse, and also for one whose text
    parses when the sink already holds an error. *)
Lemma code_action_not_compiled :
  (action_type.kind (action.type Sample.act_unparsable) = action_type.act_code
   ∧ put_actions 0 Toy.obj_ball Toy.evt_step 0 [Sample.act_unparsable]
       Toy.linker0 ""
     = Done (add_function "? x" "obj_ball_3_0_0" 0 false Toy.linker0,
             "obj_ball_3_0_0()" +:+ nl)
   ∧ compiler (add_function "? x" "obj_ball_3_0_0" 0 false Toy.linker0) = [])
  ∧ (action_type.kind (action.type Toy.act_inline) = action_type.act_code
     ∧ (getprogram "x = 1").2 = []
     ∧ ∃ st',
         put_actions 0 Toy.obj_ball Toy.evt_step 0 [Toy.act_inline]
           (add_function "? x" "scr_bad" 0 true Toy.linker0) ""
         = Done (st', "obj_ball_3_0_0()" +:+ nl)
         ∧ compiler st' = []).
Proof.
  split; [split_and!; reflexivity|].
  split; [reflexivity|]. split; [reflexivity|].
  eexists. split; reflexivity.
Qed.

Lemma code_action_unit_witness :
  (action_type.kind (action.type Toy.act_inline) = action_type.act_code
   ∧ action.args Toy.act_inline !! 0%nat
     = Some {| argument.kind := argument.arg_expr; argument.val := "x = 1";
               argument.resource := 0 |}
   ∧ put_actions 0 Toy.obj_ball Toy.evt_step 0
       ([Toy.act_of_kind action_type.act_begin []]
          ++ Toy.act_inline :: [Toy.act_of_kind action_type.act_end []])
       Toy.linker0 ""
     = Done (add_function "x = 1" "obj_ball_3_0_1" 0 false Toy.linker0,
             "{" +:+ nl +:+ "obj_ball_3_0_1()" +:+ nl +:+ "}" +:+ nl))
  ∧ (error_stream.count (errors Toy.linker0) = 0%nat
     ∧ (getprogram "x = 1").2 = []
     ∧ ∃ st',
         put_action 0 Toy.obj_ball Toy.evt_step 1 Toy.act_inline
           Toy.linker0 "{"
         = Done (st', "{" +:+ "obj_ball_3_0_1" +:+ "()" +:+ nl)
         ∧ compiler st'
           = [add_function_call "x = 1" "obj_ball_3_0_1" 0 false])
  ∧ ((object.name Toy.obj_ball, event.main_id Toy.evt_step,
      event.sub_id Toy.evt_step, 0%nat)
       ≠ (object.name Toy.obj_ball, event.main_id Toy.evt_step,
          event.sub_id Toy.evt_step, 1%nat)
     ∧ code_action_name Toy.obj_ball Toy.evt_step 0
       ≠ code_action_name Toy.obj_ball Toy.evt_step 1).
Proof.
  split; [|split].
  - split; [reflexivity|]. split; [reflexivity|].
    rewrite (proj1 code_action_unit 0%nat Toy.obj_ball Toy.evt_step
               [Toy.act_of_kind action_type.act_begin []]
               [Toy.act_of_kind action_type.act_end []]
               Toy.act_inline
               {| argument.kind := argument.arg_expr; argument.val := "x = 1";
                  argument.resource := 0 |}
               Toy.linker0 "" eq_refl eq_refl).
    reflexivity.
  - split; [reflexivity|]. split; [reflexivity|].
    destruct (proj1 (proj2 code_action_unit) 0%nat Toy.obj_ball Toy.evt_step
                1%nat Toy.act_inline
                {| argument.kind := argument.arg_expr; argument.val := "x = 1";
                   argument.resource := 0 |}
                Toy.linker0 "{" eq_refl eq_refl)
      as (st' & Hstep & Hadded & _).
    exists st'. split; [exact Hstep|].
    exact (Hadded eq_refl eq_refl).
  - split; [discriminate|].
    apply (proj2 (proj2 (code_action_unit (node := string)
                           (llvm_module := list string)))).
    discriminate.
Defined.

End CodeActionClaims.

(** ** Linking *)

Module LinkClaims.
Import Text Linker.

Section claims.
Context {node llvm_module : Type}.
Context `{!Compiler node, !Backend node llvm_module}.
Implicit Types st : Linker.t node llvm_module.

(** C2: what [link] does when the merge fails.  It records the one
    diagnostic, and then goes on as if the merge had succeeded: when the
    target can be opened, the module is written to it and kept, and
    [link] returns [true]; when it cannot, a second diagnostic is
    recorded.  That a failed merge leaves no final artifact, as the
    specification has it, does not hold of the code. *)
Theorem link_writes_after_failed_merge target debug st objects :
  files st !! objects_path st = Some objects →
  (link_both (new_module "game") objects (runtime st)).1 = true →
  ∃ game,
    let failed :=
      with_errors (error_stream.error "failed to link with runtime") st in
    error_stream.errors (errors failed)
    = error_stream.errors (errors st)
      ++ [(error_stream.context (errors st), "failed to link with runtime")]
    ∧ (open_output target = None →
       link target debug st = Done (true, with_file target game failed)
       ∧ files (with_file target game failed) !! target = Some game
       ∧ (0 < error_stream.count (errors (with_file target game failed)))%nat)
    ∧ (∀ message, open_output target = Some message →
       link target debug st
       = Done (false, with_errors (error_stream.error message) failed)).
Proof.
  intros Hobjects Hfailed. unfold link, load_module. rewrite Hobjects.
  cbn [of_option mbind outcome_bind].
  destruct (link_both (new_module "game") objects (runtime st))
    as [failed game] eqn:Hboth.
  cbn in Hfailed. subst failed.
  exists (if debug then game else lto_passes game).
  cbn zeta. split_and!.
  - done.
  - intros ->. split_and!; [done| |].
    + cbn. apply lookup_insert_eq.
    + cbn. unfold error_stream.count. cbn. rewrite length_app. cbn. lia.
  - by intros message ->.
Qed.
End claims.

Lemma link_writes_after_failed_merge_witness :
  (files (Toy.linker_of Toy.no_game Toy.clashing_files)
     !! objects_path (Toy.linker_of Toy.no_game Toy.clashing_files)
   = Some ["show_message"])
  ∧ ∃ st',
      link "game.bc" false (Toy.linker_of Toy.no_game Toy.clashing_files)
      = Done (true, st')
      ∧ is_Some (files st' !! "game.bc")
      ∧ (0 < error_stream.count (errors st'))%nat.
Proof.
  assert (files (Toy.linker_of Toy.no_game Toy.clashing_files)
            !! objects_path (Toy.linker_of Toy.no_game Toy.clashing_files)
          = Some ["show_message"]) as Hobjects by reflexivity.
  split; [exact Hobjects|].
  assert ((link_both (new_module "game") ["show_message"]
             (runtime (Toy.linker_of Toy.no_game Toy.clashing_files))).1
          = true) as Hfailed by (vm_compute; reflexivity).
  destruct (link_writes_after_failed_merge "game.bc" false
              (Toy.linker_of Toy.no_game Toy.clashing_files)
              ["show_message"] Hobjects Hfailed)
    as (game & _ & Hwritten & _).
  destruct (Hwritten eq_refl) as (Hlink & Hfile & Hcount).
  eexists. split; [exact Hlink|]. split; [by eexists|exact Hcount].
Defined.

End LinkClaims.

(** ** Normal actions *)

Module NormalActionClaims.
Import Text TextFacts Render Linker NameFacts.

Lemma join_cons (sep t : string) (texts : list string) :
  join sep (t :: texts)
  = match texts with [] => t | _ => t +:+ sep +:+ join sep texts end.
Proof. by destruct texts. Qed.

Lemma join_snoc (sep t : string) (texts : list string) :
  texts ≠ [] → join sep (texts ++ [t]) = join sep texts +:+ sep +:+ t.
Proof.
  induction texts as [|x texts IHt]; [done|]. intros _.
  destruct texts as [|y texts]; [done|].
  change ((x :: y :: texts) ++ [t]) with (x :: ((y :: texts) ++ [t])).
  rewrite join_cons. cbn [app]. rewrite (join_cons sep x (y :: texts)).
  change (y :: texts ++ [t]) with ((y :: texts) ++ [t]).
  rewrite IHt by done. by rewrite !sapp_assoc.
Qed.

Lemma render_all_nil fuel args texts :
  Spec.render_all fuel args = Done texts → texts = [] → args = [].
Proof.
  destruct args as [|arg args]; [done|]. cbn [Spec.render_all].
  destruct (render_argument fuel arg); [|done..]. cbn.
  destruct (Spec.render_all fuel args); [|done..]. cbn. by intros [= <-].
Qed.

(** The loop over the arguments from a later index on: every text comes
    after a separator. *)
Lemma put_args_later fuel n args code :
  put_args fuel (S n) args code
  = texts ← Spec.render_all fuel args;
    Done (match texts with
          | [] => code
          | _ => code +:+ ", " +:+ join ", " texts
          end).
Proof.
  revert n code. induction args as [|arg args IHa]; intros n code; [done|].
  cbn [put_args Spec.render_all]. rewrite decide_True by done.
  destruct (render_argument fuel arg) as [text| |]; [|done..]. cbn [mbind outcome_bind].
  rewrite IHa. destruct (Spec.render_all fuel args) as [texts| |]; [|done..].
  cbn [mbind outcome_bind]. f_equal. rewrite join_cons. destruct texts; by rewrite ?sapp_assoc.
Qed.

(** The loop over all the arguments writes them joined by the separator. *)
Lemma put_args_join fuel args code :
  put_args fuel 0 args code
  = texts ← Spec.render_all fuel args; Done (code +:+ join ", " texts).
Proof.
  destruct args as [|arg args]; cbn [put_args Spec.render_all].
  - cbn. by rewrite sapp_nil_r.
  - rewrite decide_False by (intros Hn; by apply Hn).
    destruct (render_argument fuel arg) as [text| |]; [|done..]. cbn [mbind outcome_bind].
    rewrite put_args_later.
    destruct (Spec.render_all fuel args) as [texts| |]; [|done..].
    cbn [mbind outcome_bind]. f_equal. rewrite join_cons. destruct texts; by rewrite ?sapp_assoc.
Qed.

Lemma put_callee_spec ty code : put_callee ty code = code +:+ Spec.callee ty.
Proof.
  unfold Spec.callee. destruct (decide (action_type.exec ty = _)) as [He|He].
  - by apply put_callee_library.
  - unfold put_callee. by rewrite decide_False.
Qed.

(** The text the code writes before and after the argument list. *)
Lemma put_normal_shape fuel act code :
  put_normal fuel act code
  = texts ← Spec.render_all fuel (action.args act);
    Done (code
      +:+ Spec.before_arguments act
      +:+ "(" +:+ join ", " texts
      +:+ (if action_type.relative (action.type act)
           then ", " +:+ show_bool (action.relative act) else "")
      +:+ ")"
      +:+ Spec.after_arguments act
      +:+ nl).
Proof.
  unfold put_normal. rewrite put_args_join, put_callee_spec.
  destruct (Spec.render_all fuel (action.args act)) as [texts| |]; [|done..].
  cbn [mbind outcome_bind]. f_equal.
  unfold Spec.before_arguments, Spec.after_arguments.
  destruct (decide (action.target act ≠ action.self));
    destruct (action_type.question (action.type act));
    destruct (action.inv act);
    destruct (action_type.relative (action.type act));
    by rewrite ?sapp_assoc, ?sapp_nil_r, ?sapp_nil_l.
Qed.

(** Where the action has an argument, or its type declares no relative
    argument, the code writes the text the specification describes,
    followed by a line end. *)
Lemma put_normal_spec fuel act code :
  action.args act ≠ [] ∨ action_type.relative (action.type act) = false →
  put_normal fuel act code
  = texts ← Spec.render_all fuel (action.args act);
    Done (code +:+ Spec.normal_text act texts +:+ nl).
Proof.
  intros Hcase. rewrite put_normal_shape.
  destruct (Spec.render_all fuel (action.args act)) as [texts| |] eqn:Hr;
    [|done..].
  cbn [mbind outcome_bind]. f_equal. unfold Spec.normal_text.
  rewrite !sapp_assoc. do 3 f_equal. unfold Spec.argument_list.
  destruct (action_type.relative (action.type act)).
  - destruct Hcase as [Hargs|?]; [|done].
    rewrite join_snoc; [by rewrite !sapp_assoc|].
    intros ->. by apply Hargs, (render_all_nil fuel _ []).
  - by rewrite app_nil_r, sapp_nil_l.
Qed.

(** C4: the case the code misses.  For a normal action without arguments
    whose type declares the relative argument, the code writes a
    separator before the relative argument although nothing precedes it,
    so the argument list reads [(, r)]; the text the specification
    describes has the list [(r)]. *)
Theorem relative_argument_without_arguments fuel act code :
  action.args act = [] →
  action_type.relative (action.type act) = true →
  put_normal fuel act code
  = Done (code +:+ Spec.before_arguments act
            +:+ "(, " +:+ show_bool (action.relative act) +:+ ")"
            +:+ Spec.after_arguments act +:+ nl)
  ∧ Spec.normal_text act []
    = Spec.before_arguments act
        +:+ "(" +:+ show_bool (action.relative act) +:+ ")"
        +:+ Spec.after_arguments act
  ∧ put_normal fuel act code
    ≠ Done (code +:+ Spec.normal_text act [] +:+ nl).
Proof.
  intros Hargs Hrel.
  assert (Spec.normal_text act []
          = Spec.before_arguments act
              +:+ "(" +:+ show_bool (action.relative act) +:+ ")"
              +:+ Spec.after_arguments act) as Hspec.
  { unfold Spec.normal_text, Spec.argument_list. by rewrite Hrel. }
  assert (put_normal fuel act code
          = Done (code +:+ Spec.before_arguments act
                    +:+ "(, " +:+ show_bool (action.relative act) +:+ ")"
                    +:+ Spec.after_arguments act +:+ nl)) as Hcode.
  { rewrite put_normal_shape, Hargs, Hrel. done. }
  split_and!; [done..|].
  rewrite Hcode, Hspec. intros [= Heq]. rewrite !sapp_assoc in Heq.
  do 2 apply (inj (String.app _)) in Heq.
  by destruct (action.relative act).
Qed.

Lemma relative_argument_without_arguments_witness :
  (action.args Toy.act_move = []
   ∧ action_type.relative (action.type Toy.act_move) = true)
  ∧ put_normal 0 Toy.act_move "" = Done ("move(, 0)" +:+ nl)
  ∧ Spec.normal_text Toy.act_move [] = "move(0)".
Proof.
  split; [split; reflexivity|].
  destruct (relative_argument_without_arguments 0 Toy.act_move ""
              eq_refl eq_refl) as (Hcode & Hspec & _).
  split; [exact Hcode|exact Hspec].
Defined.

End NormalActionClaims.

(** ** The runtime: scopes and arrays *)

Module RuntimeClaims.
Import Runtime.

Section claims.
Context {variant : Type}.
Variable default_var : var.t variant.
Implicit Types st : state variant.
Implicit Types s self other : scope_ptr.

Lemma deref_store s sc sc' st :
  deref s st = Done sc → deref s (store s sc' st) = Done sc'.
Proof.
  destruct s as [|address]; cbn; [done|]. intros _.
  by rewrite lookup_insert_eq.
Qed.

Lemma subscript_lookup name (sc : gmap string (var.t variant)) :
  subscript default_var name sc !! name
  = Some (default (default_var) (sc !! name)).
Proof.
  unfold subscript. destruct (sc !! name) as [v|] eqn:Hv; [done|].
  by rewrite lookup_insert_eq.
Qed.

Lemma subscript_other name name' (sc : gmap string (var.t variant)) :
  name' ≠ name → subscript default_var name sc !! name' = sc !! name'.
Proof.
  intros Hne. unfold subscript. destruct (sc !! name); [done|].
  by rewrite lookup_insert_ne.
Qed.

Lemma subscript_idemp name (sc : gmap string (var.t variant)) :
  subscript default_var name (subscript default_var name sc)
  = subscript default_var name sc.
Proof.
  unfold subscript at 1. by rewrite subscript_lookup.
Qed.

Lemma store_store s sc sc' st :
  store s sc' (store s sc st) = store s sc' st.
Proof.
  destruct s as [|address]; cbn; [done|]. by rewrite insert_insert_eq.
Qed.

(** The three selectors that resolve, with the scope they resolve to. *)
Lemma lookup_resolved self other id name st k s sc :
  int_of_double id = Some k →
  (k = -1 ∧ s = self) ∨ (k = -2 ∧ s = other) ∨ (k = -5 ∧ s = global_ptr) →
  deref s st = Done sc →
  lookup default_var self other id name st
  = Done (Some (s, name), store s (subscript default_var name sc) st).
Proof.
  intros Hid Hk Hs. unfold lookup. rewrite Hid. cbn [of_option mbind outcome_bind].
  destruct Hk as [[-> ->]|[[-> ->]|[-> ->]]];
    repeat (case_decide; try lia); rewrite Hs; done.
Qed.

(** C6.  The selector is the integer that the cast of [id] gives.  -1
    resolves in the scope of [self], -2 in the scope of [other], -5 in
    the global scope; -3 and -4 show the fatal error "variable does not
    exist" and -6 the fatal error "local is not supported", each with a
    null result; every other selector gives a null result and shows
    nothing. *)
Theorem lookup_selectors self other id name st k :
  int_of_double id = Some k →
  (k = -1 → ∀ sc, deref self st = Done sc →
     lookup default_var self other id name st
     = Done (Some (self, name),
             store self (subscript default_var name sc) st))
  ∧ (k = -2 → ∀ sc, deref other st = Done sc →
     lookup default_var self other id name st
     = Done (Some (other, name),
             store other (subscript default_var name sc) st))
  ∧ (k = -5 →
     lookup default_var self other id name st
     = Done (Some (global_ptr, name),
             store global_ptr (subscript default_var name (global st)) st))
  ∧ (k = -3 ∨ k = -4 →
     lookup default_var self other id name st
     = Done (None, show_error "variable does not exist" true st))
  ∧ (k = -6 →
     lookup default_var self other id name st
     = Done (None, show_error "local is not supported" true st))
  ∧ (k ∉ [-1; -2; -3; -4; -5; -6] →
     lookup default_var self other id name st = Done (None, st)).
Proof.
  intros Hid. split_and!.
  - intros -> sc Hsc. apply (lookup_resolved _ _ _ _ _ (-1)); auto.
  - intros -> sc Hsc. apply (lookup_resolved _ _ _ _ _ (-2)); auto.
  - intros ->. apply (lookup_resolved _ _ _ _ _ (-5)); auto.
  - intros Hk. unfold lookup. rewrite Hid. cbn [of_option mbind outcome_bind].
    repeat (case_decide; try lia). done.
  - intros ->. unfold lookup. rewrite Hid. cbn [of_option mbind outcome_bind].
    repeat (case_decide; try lia). done.
  - intros Hk. unfold lookup. rewrite Hid. cbn [of_option mbind outcome_bind].
    rewrite !not_elem_of_cons in Hk.
    repeat (case_decide; try lia). done.
Qed.

(** C7.  Two calls of [lookup] with the global selector and one name
    return the same pointer, into the one global scope: the second call
    finds the state the first one left and leaves it as it is.  And in
    whichever scope a selector resolves to, a name that is not there is
    inserted with the default [var], its slot is returned, and the other
    names keep their slots. *)
Theorem lookup_global_shared_and_vivifies :
  (∀ self other id name st,
     int_of_double id = Some (-5) →
     ∃ st1,
       lookup default_var self other id name st
       = Done (Some (global_ptr, name), st1)
       ∧ lookup default_var self other id name st1
         = Done (Some (global_ptr, name), st1)
       ∧ (∀ v, global st !! name = Some v → st1 = st)
       ∧ is_Some (global st1 !! name))
  ∧ (∀ self other id name st k s sc,
       int_of_double id = Some k →
       (k = -1 ∧ s = self) ∨ (k = -2 ∧ s = other)
         ∨ (k = -5 ∧ s = global_ptr) →
       deref s st = Done sc →
       sc !! name = None →
       ∃ st' sc',
         lookup default_var self other id name st
         = Done (Some (s, name), st')
         ∧ deref s st' = Done sc'
         ∧ sc' !! name = Some default_var
         ∧ deref_var (s, name) st' = Done default_var
         ∧ ∀ name', name' ≠ name → sc' !! name' = sc !! name').
Proof.
  split.
  - intros self other id name st Hid.
    exists (store global_ptr (subscript default_var name (global st)) st).
    split_and!.
    + by apply (lookup_resolved _ _ _ _ _ (-5)); auto.
    + rewrite (lookup_resolved _ _ _ _ _ (-5) global_ptr
        (subscript default_var name (global st))); auto.
      by rewrite store_store, subscript_idemp.
    + intros v Hv. unfold subscript. rewrite Hv. by destruct st.
    + cbn. rewrite subscript_lookup. by eexists.
  - intros self other id name st k s sc Hid Hk Hs Hname.
    exists (store s (subscript default_var name sc) st),
           (subscript default_var name sc).
    assert (deref s (store s (subscript default_var name sc) st)
            = Done (subscript default_var name sc)) as Hderef
      by by apply (deref_store s sc).
    split_and!.
    + by apply (lookup_resolved _ _ _ _ _ k).
    + done.
    + by rewrite subscript_lookup, Hname.
    + unfold deref_var. cbn [fst snd]. rewrite Hderef.
      cbn [mbind outcome_bind]. by rewrite subscript_lookup, Hname.
    + intros name' Hne. by apply subscript_other.
Qed.
End claims.

Section arrays.
Context {variant : Type}.
Implicit Types st : state variant.

(** C5.  [access] shows the fatal error "index out of bounds" and
    returns null exactly when [x] is at least the x-extent or [y] at
    least the y-extent, so also for [x] equal to the x-extent and for
    [y] equal to the y-extent; otherwise it returns the pointer to the
    cell at position [x + y * X] and shows nothing.  Either way the
    scopes, and with them the extents and the cells of the array, are
    as before.  For an array that holds [X * Y] cells the pointer
    returned is to one of its cells. *)
Theorem access_bounds (a : var_ptr) (x y : Z) st (v : var.t variant) :
  deref_var a st = Done v →
  (x >= var.x v ∨ y >= var.y v →
     access a x y st = Done (None, show_error "index out of bounds" true st))
  ∧ (x < var.x v ∧ y < var.y v →
     access a x y st = Done (Some (a, x + y * var.x v), st))
  ∧ access a (var.x v) y st
    = Done (None, show_error "index out of bounds" true st)
  ∧ access a x (var.y v) st
    = Done (None, show_error "index out of bounds" true st)
  ∧ (∃ r st',
       access a x y st = Done (r, st')
       ∧ (r = None ↔ x >= var.x v ∨ y >= var.y v)
       ∧ global st' = global st
       ∧ instances st' = instances st
       ∧ deref_var a st' = Done v)
  ∧ (0 ≤ x < var.x v → 0 ≤ y < var.y v →
     length (var.contents v) = Z.to_nat (var.x v * var.y v) →
     ∃ c, cell (a, x + y * var.x v) st = Done c).
Proof.
  intros Hv.
  assert (∀ x y, x >= var.x v ∨ y >= var.y v →
    access a x y st = Done (None, show_error "index out of bounds" true st))
    as Hout.
  { intros x' y' Hxy. unfold access. rewrite Hv. cbn [mbind outcome_bind].
    repeat case_decide; try done. lia. }
  assert (x < var.x v ∧ y < var.y v →
    access a x y st = Done (Some (a, x + y * var.x v), st)) as Hin.
  { intros Hxy. unfold access. rewrite Hv. cbn [mbind outcome_bind].
    repeat case_decide; try done; lia. }
  split_and!.
  - apply Hout.
  - apply Hin.
  - apply Hout. lia.
  - apply Hout. lia.
  - destruct (decide (x >= var.x v ∨ y >= var.y v)) as [Hxy|Hxy].
    + eexists _, _. split; [by apply Hout|]. split_and!; done.
    + eexists _, _. split; [apply Hin; lia|]. split_and!; try done;
        intros H; by destruct Hxy.
  - intros Hx Hy Hlen. unfold cell. cbn [fst snd]. rewrite Hv.
    cbn [mbind outcome_bind]. rewrite decide_True by nia.
    destruct (lookup_lt_is_Some_2 (var.contents v)
      (Z.to_nat (x + y * var.x v))) as [c ->]; [|by eexists].
    rewrite Hlen. nia.
Qed.
End arrays.

End RuntimeClaims.

Module RuntimeExamples.
Import Runtime RuntimeClaims.

Lemma lookup_selectors_witness :
  (int_of_double Toy.double_self = Some (-1)
   ∧ deref (instance_ptr 1) Toy.memory = Done ∅)
  ∧ lookup Toy.fresh (instance_ptr 1) (instance_ptr 2) Toy.double_self "hp"
      Toy.memory
    = Done (Some (instance_ptr 1, "hp"),
            store (instance_ptr 1) (subscript Toy.fresh "hp" ∅) Toy.memory)
  ∧ (int_of_double Toy.double_all = Some (-3)
     ∧ lookup Toy.fresh (instance_ptr 1) (instance_ptr 2) Toy.double_all "hp"
         Toy.memory
       = Done (None, show_error "variable does not exist" true Toy.memory)).
Proof.
  split; [split; reflexivity|]. split.
  - destruct (lookup_selectors Toy.fresh (instance_ptr 1) (instance_ptr 2)
                Toy.double_self "hp" Toy.memory (-1) eq_refl) as (Hself & _).
    apply (Hself eq_refl ∅). reflexivity.
  - split; [reflexivity|].
    destruct (lookup_selectors Toy.fresh (instance_ptr 1) (instance_ptr 2)
                Toy.double_all "hp" Toy.memory (-3) eq_refl)
      as (_ & _ & _ & Hall & _).
    apply Hall. by left.
Defined.

Lemma lookup_global_shared_and_vivifies_witness :
  (int_of_double Toy.double_global = Some (-5)
   ∧ ∃ st1,
       lookup Toy.fresh (instance_ptr 1) (instance_ptr 2) Toy.double_global
         "lives" Toy.memory
       = Done (Some (global_ptr, "lives"), st1)
       ∧ lookup Toy.fresh (instance_ptr 1) (instance_ptr 2) Toy.double_global
           "lives" st1
         = Done (Some (global_ptr, "lives"), st1))
  ∧ (int_of_double Toy.double_self = Some (-1)
     ∧ deref (instance_ptr 1) Toy.memory = Done ∅
     ∧ (∅ : gmap string (var.t Z)) !! "hp" = None
     ∧ ∃ st',
         lookup Toy.fresh (instance_ptr 1) (instance_ptr 2) Toy.double_self
           "hp" Toy.memory
         = Done (Some (instance_ptr 1, "hp"), st')
         ∧ deref_var (instance_ptr 1, "hp") st' = Done Toy.fresh).
Proof.
  split.
  - split; [reflexivity|].
    destruct (proj1 (lookup_global_shared_and_vivifies Toy.fresh)
                (instance_ptr 1) (instance_ptr 2) Toy.double_global "lives"
                Toy.memory eq_refl) as (st1 & Hfirst & Hsecond & _).
    exists st1. split; [exact Hfirst|exact Hsecond].
  - split; [reflexivity|]. split; [reflexivity|]. split; [reflexivity|].
    destruct (proj2 (lookup_global_shared_and_vivifies Toy.fresh)
                (instance_ptr 1) (instance_ptr 2) Toy.double_self "hp"
                Toy.memory (-1) (instance_ptr 1) ∅ eq_refl
                (or_introl (conj eq_refl eq_refl)) eq_refl eq_refl)
      as (st' & sc' & Hlookup & _ & _ & Hvar & _).
    exists st'. split; [exact Hlookup|exact Hvar].
Defined.

Lemma access_bounds_witness :
  deref_var (global_ptr, "score") Toy.memory = Done Toy.grid
  ∧ access (global_ptr, "score") 2 0 Toy.memory
    = Done (None, show_error "index out of bounds" true Toy.memory)
  ∧ access (global_ptr, "score") 1 2 Toy.memory
    = Done (Some ((global_ptr, "score"), 5), Toy.memory).
Proof.
  assert (deref_var (global_ptr, "score") Toy.memory = Done Toy.grid)
    as Hgrid by reflexivity.
  split; [exact Hgrid|]. split.
  - destruct (access_bounds (global_ptr, "score") 2 0 Toy.memory Toy.grid
                Hgrid) as (Hout & _).
    apply Hout. left. cbn. lia.
  - destruct (access_bounds (global_ptr, "score") 1 2 Toy.memory Toy.grid
                Hgrid) as (_ & Hin & _).
    apply Hin. cbn. lia.
Defined.

(** The cast drops the fraction: the double -1.5 selects [self] too. *)
Example lookup_truncates :
  int_of_double (S754_finite true 3 (-1)) = Some (-1).
Proof. reflexivity. Qed.

End RuntimeExamples.

(** * Further properties of the code *)

(** ** Quoted arguments *)

Module QuotedArguments.
Import Text TextFacts Render RenderFacts.

Lemma not_quote_free (v : string) :
  Renderable.quote_free v = false → ∃ pos, find dquote v = Some pos.
Proof.
  intros Hq. destruct (find dquote v) as [pos|] eqn:Hf; [by eexists|].
  apply find_none_iff in Hf. unfold Renderable.quote_free in Hq. congruence.
Qed.

Lemma render_string_diverges (fuel : nat) (v : string) :
  Renderable.quote_free v = false → render_string fuel v = Diverges.
Proof.
  intros Hq. destruct (not_quote_free v Hq) as [pos Hpos].
  unfold render_string. by rewrite (escape_quotes_diverges fuel v pos).
Qed.

(** X1.  An argument of string kind is written between double quotes when
    its text holds no double quote, with any fuel that pays for one test
    of the loop; when its text holds a double quote the escaping loop
    never ends, whatever the fuel: the text it puts in place of a double
    quote begins with a double quote. *)
Theorem string_argument_rendering (fuel : nat) (arg : argument.t) :
  argument.kind arg = argument.arg_string →
  (Renderable.quote_free (argument.val arg) = true →
     render_argument (S fuel) arg
     = Done (String dquote (argument.val arg) +:+ String dquote ""))
  ∧ (Renderable.quote_free (argument.val arg) = false →
     render_argument fuel arg = Diverges).
Proof.
  intros Hk. unfold render_argument. rewrite Hk. split.
  - apply render_string_done.
  - apply render_string_diverges.
Qed.

Lemma string_argument_rendering_witness :
  (argument.kind (Sample.arg_of argument.arg_string Sample.say_hi)
   = argument.arg_string
   ∧ Renderable.quote_free Sample.say_hi = false)
  ∧ render_argument 1000 (Sample.arg_of argument.arg_string Sample.say_hi)
    = Diverges.
Proof.
  split; [split; reflexivity|].
  apply (string_argument_rendering 1000
           (Sample.arg_of argument.arg_string Sample.say_hi) eq_refl).
  reflexivity.
Defined.

(** X2.  An argument of the kind that is either a string or an
    expression is written as it is when its text begins with a double or
    a single quote, without any look at the rest of the text and with any
    fuel; otherwise it is treated as a string: quoted when it holds no
    double quote, and never finished when it holds one. *)
Theorem both_argument_rendering (fuel : nat) (arg : argument.t) :
  argument.kind arg = argument.arg_both →
  (first_char (argument.val arg) = dquote
   ∨ first_char (argument.val arg) = squote →
     render_argument fuel arg = Done (argument.val arg))
  ∧ (first_char (argument.val arg) ≠ dquote →
     first_char (argument.val arg) ≠ squote →
     (Renderable.quote_free (argument.val arg) = true →
        render_argument (S fuel) arg
        = Done (String dquote (argument.val arg) +:+ String dquote ""))
     ∧ (Renderable.quote_free (argument.val arg) = false →
        render_argument fuel arg = Diverges)).
Proof.
  intros Hk. unfold render_argument. rewrite Hk. split.
  - intros [Hq|Hq].
    + by rewrite (bool_decide_eq_true_2 _ Hq).
    + rewrite (bool_decide_eq_true_2 _ Hq). by rewrite orb_true_r.
  - intros Hd Hs.
    rewrite (bool_decide_eq_false_2 _ Hd), (bool_decide_eq_false_2 _ Hs).
    cbn [orb]. split.
    + apply render_string_done.
    + apply render_string_diverges.
Qed.

Lemma both_argument_rendering_witness :
  (argument.kind
     (Sample.arg_of argument.arg_both (String squote Sample.say_hi))
   = argument.arg_both
   ∧ first_char (String squote Sample.say_hi) = squote)
  ∧ render_argument 0
      (Sample.arg_of argument.arg_both (String squote Sample.say_hi))
    = Done (String squote Sample.say_hi).
Proof.
  split; [split; reflexivity|].
  apply (both_argument_rendering 0
           (Sample.arg_of argument.arg_both (String squote Sample.say_hi))
           eq_refl).
  by right.
Defined.

End QuotedArguments.

(** ** The unit compiler and the diagnostics sink *)

Module SinkProperties.
Import Text TextFacts Linker Units UnitFacts.

Lemma report_progresses (msgs : list string) (e : error_stream.t) :
  error_stream.progresses (error_stream.report msgs e)
  = error_stream.progresses e.
Proof.
  unfold error_stream.report. revert e.
  induction msgs as [|msg msgs IHm]; intros e; [done|].
  cbn [foldl]. by rewrite IHm.
Qed.

Section facts.
Context {node llvm_module : Type}.
Context `{!Compiler node, !Backend node llvm_module}.
Implicit Types st : Linker.t node llvm_module.
Implicit Types u : Spec.unit_t.

(** What the code generator reports for a unit, when it gets to see it. *)
Lemma compile_errors st u :
  error_stream.errors (errors (compile st u))
  = error_stream.errors (errors st)
    ++ map (λ msg, (Spec.name u, msg))
         ((getprogram (Spec.text u)).2
          ++ (if decide (error_stream.count (errors st) = 0%nat
                         ∧ (getprogram (Spec.text u)).2 = [])
              then codegen_errors (compiler st) (getprogram (Spec.text u)).1
                     (Spec.name u) (Spec.args u) (Spec.is_script u)
              else []))
  ∧ error_stream.context (errors (compile st u)) = Spec.name u
  ∧ error_stream.progresses (errors (compile st u))
    = error_stream.progresses (errors st).
Proof.
  unfold compile, add_function.
  destruct (getprogram (Spec.text u)) as [program syntax_errors].
  cbn [fst snd].
  pose proof (report_errors syntax_errors
    (error_stream.set_context (Spec.name u) (errors st))) as [Hlog Hctx].
  cbn [error_stream.errors error_stream.context error_stream.set_context]
    in Hlog, Hctx.
  case_decide as Hc; cbn [errors with_errors] in Hc;
    rewrite count_report in Hc; cbn in Hc.
  - cbn [errors with_errors]. rewrite Hlog, Hctx, report_progresses.
    rewrite decide_False; [by rewrite app_nil_r|].
    intros [Hcount ->]. cbn in Hc. unfold error_stream.count in *. lia.
  - unfold codegen_add_function. cbn [errors with_errors with_compiler compiler].
    pose proof (report_errors
      (codegen_errors (compiler st) program (Spec.name u) (Spec.args u)
         (Spec.is_script u))
      (error_stream.report syntax_errors
         (error_stream.set_context (Spec.name u) (errors st))))
      as [Hlog' Hctx'].
    rewrite Hlog', Hctx', Hlog, Hctx, !report_progresses.
    rewrite decide_True.
    + by rewrite map_app, app_assoc.
    + unfold error_stream.count in *. split; [lia|].
      destruct syntax_errors; [done|cbn in Hc; lia].
Qed.

(** Over a sequence of units the log only grows, and what is added
    carries the names of the units. *)
Lemma compile_all_errors st (us : list Spec.unit_t) :
  ∃ new,
    error_stream.errors (errors (compile_all st us))
    = error_stream.errors (errors st) ++ new
    ∧ Forall (λ e, e.1 ∈ map Spec.name us) new
    ∧ error_stream.progresses (errors (compile_all st us))
      = error_stream.progresses (errors st).
Proof.
  revert st. induction us as [|u us IHus]; intros st.
  - exists []. by rewrite app_nil_r.
  - rewrite compile_all_cons.
    destruct (IHus (compile st u)) as (new & Hlog & Hnames & Hprog).
    destruct (compile_errors st u) as (Hlog1 & _ & Hprog1).
    eexists. rewrite Hlog, Hlog1, <-app_assoc. split; [done|].
    split; [|congruence].
    apply Forall_app. split.
    + apply Forall_forall. intros e He.
      apply list_elem_of_fmap in He as (msg & -> & _). cbn. by left.
    + eapply Forall_impl; [exact Hnames|]. intros e He. by right.
Qed.

(** X3.  Every diagnostic that [add_function] records for a unit is
    recorded under the unit's name, after the diagnostics that were there,
    which stay as they are: first the syntax errors and then, if the sink
    was empty and the unit parsed, what the code generator reports.  The
    context of the sink is the unit's name afterwards, also for a unit
    that is abandoned. *)
Theorem diagnostics_carry_unit_name st u :
  error_stream.errors (errors (compile st u))
  = error_stream.errors (errors st)
    ++ map (λ msg, (Spec.name u, msg))
         ((getprogram (Spec.text u)).2
          ++ (if decide (error_stream.count (errors st) = 0%nat
                         ∧ (getprogram (Spec.text u)).2 = [])
              then codegen_errors (compiler st) (getprogram (Spec.text u)).1
                     (Spec.name u) (Spec.args u) (Spec.is_script u)
              else []))
  ∧ error_stream.context (errors (compile st u)) = Spec.name u.
Proof. destruct (compile_errors st u) as (?&?&?). done. Qed.

(** X4.  A unit that parses can still leave the build with an error: when
    the code generator reports one for it, the function has been added
    all the same, and every unit after it is abandoned. *)
Theorem codegen_error_stops_later_units st u (us : list Spec.unit_t) :
  error_stream.count (errors st) = 0%nat →
  (getprogram (Spec.text u)).2 = [] →
  codegen_errors (compiler st) (getprogram (Spec.text u)).1
    (Spec.name u) (Spec.args u) (Spec.is_script u) ≠ [] →
  compiler (compile_all st (u :: us)) = compiler st ++ [call_of u]
  ∧ (0 < error_stream.count (errors (compile_all st (u :: us))))%nat.
Proof.
  intros Hclean Hparse Hgen. rewrite compile_all_cons.
  destruct (compile_cases st u) as [(_&Hlog&Hcount)|(Hpos&_)];
    [|rewrite Hparse in Hpos; cbn in Hpos; lia].
  assert (0 < error_stream.count (errors (compile st u)))%nat as Hpos.
  { rewrite Hcount.
    destruct (codegen_errors _ _ _ _ _); [done|cbn; lia]. }
  split.
  - by rewrite compile_all_stuck, Hlog.
  - destruct (compile_all_grows (compile st u) us) as (_&_&_&_&Hmono&_).
    lia.
Qed.
End facts.

Lemma codegen_error_stops_later_units_witness :
  (error_stream.count (errors Toy.linker0) = 0%nat
   ∧ (getprogram (Spec.text Sample.calls_ghost)).2 = []
   ∧ codegen_errors (compiler Toy.linker0)
       (getprogram (Spec.text Sample.calls_ghost)).1
       (Spec.name Sample.calls_ghost) (Spec.args Sample.calls_ghost)
       (Spec.is_script Sample.calls_ghost) ≠ [])
  ∧ compiler (compile_all Toy.linker0 [Sample.calls_ghost; Toy.good_unit])
    = compiler Toy.linker0 ++ [call_of Sample.calls_ghost].
Proof.
  split; [split_and!; [reflexivity|reflexivity|discriminate]|].
  apply (codegen_error_stops_later_units Toy.linker0 Sample.calls_ghost
           [Toy.good_unit]); [reflexivity|reflexivity|discriminate].
Defined.

End SinkProperties.

(** ** The object phase as a sequence of units *)

Module SynthesisProperties.
Import Text TextFacts Render Linker Units UnitFacts NameFacts Synthesis.
Import NormalActionClaims SinkProperties.

(** The text of a normal action does not depend on the text before it. *)
Lemma put_normal_prefix fuel act code :
  put_normal fuel act code
  = text ← put_normal fuel act ""; Done (code +:+ text).
Proof.
  rewrite !put_normal_shape.
  destruct (Spec.render_all fuel (action.args act)) as [texts| |]; [|done..].
  cbn [mbind outcome_bind]. by rewrite sapp_nil_l.
Qed.

Section facts.
Context {node llvm_module : Type}.
Context `{!Compiler node, !Backend node llvm_module}.
Implicit Types st : Linker.t node llvm_module.

Lemma put_action_part fuel obj evt a act st code :
  put_action fuel obj evt a act st code
  = '(us, text) ← action_part fuel obj evt a act;
    Done (compile_all st us, code +:+ text).
Proof.
  unfold put_action, action_part.
  destruct (action_type.kind (action.type act)); try done.
  - case_decide; [cbn; by rewrite sapp_nil_r|].
    rewrite put_normal_prefix.
    by destruct (put_normal fuel act "").
  - by destruct (arg_val act 0).
  - destruct (arg_val act 0); [|done..]. cbn.
    by destruct (arg_val act 1).
  - by destruct (arg_val act 0).
  - cbn. by rewrite sapp_nil_r.
Qed.

Lemma put_actions_part fuel obj evt a acts st code :
  put_actions fuel obj evt a acts st code
  = '(us, text) ← actions_part fuel obj evt a acts;
    Done (compile_all st us, code +:+ text).
Proof.
  revert a st code. induction acts as [|act acts IHa]; intros a st code.
  - cbn. by rewrite sapp_nil_r.
  - cbn [put_actions actions_part]. rewrite put_action_part.
    destruct (action_part fuel obj evt a act) as [[us text]| |]; [|done..].
    cbn [mbind outcome_bind]. rewrite IHa.
    destruct (actions_part fuel obj evt (S a) acts) as [[us' text']| |];
      [|done..].
    cbn [mbind outcome_bind]. by rewrite compile_all_app, sapp_assoc.
Qed.

Lemma build_event_units fuel obj st evt :
  build_event fuel obj st evt
  = us ← event_units fuel obj evt; Done (compile_all st us).
Proof.
  unfold build_event, event_units. rewrite put_actions_part.
  destruct (actions_part fuel obj evt 0 (event.actions evt))
    as [[us text]| |]; [|done..].
  cbn [mbind outcome_bind]. by rewrite compile_all_app, sapp_nil_l.
Qed.

Lemma build_events_units fuel obj evts st :
  build_events fuel obj evts st
  = us ← events_units fuel obj evts; Done (compile_all st us).
Proof.
  revert st. induction evts as [|evt evts IHe]; intros st; [done|].
  cbn [build_events events_units]. rewrite build_event_units.
  destruct (event_units fuel obj evt) as [us| |]; [|done..].
  cbn [mbind outcome_bind]. rewrite IHe.
  destruct (events_units fuel obj evts) as [us'| |]; [|done..].
  cbn [mbind outcome_bind]. by rewrite compile_all_app.
Qed.

Lemma build_objects_from_units fuel objs st :
  build_objects_from fuel objs st
  = us ← objects_units fuel objs; Done (compile_all st us).
Proof.
  revert st. induction objs as [|obj objs IHo]; intros st; [done|].
  cbn [build_objects_from objects_units]. rewrite build_events_units.
  destruct (events_units fuel obj (object.events obj)) as [us| |]; [|done..].
  cbn [mbind outcome_bind]. rewrite IHo.
  destruct (objects_units fuel objs) as [us'| |]; [|done..].
  cbn [mbind outcome_bind]. by rewrite compile_all_app.
Qed.

Lemma silent_actions_part fuel obj evt a acts :
  forallb is_silent acts = true →
  actions_part fuel obj evt a acts = Done ([], "").
Proof.
  revert a. induction acts as [|act acts IHa]; intros a Hs; [done|].
  cbn [forallb] in Hs. apply andb_true_iff in Hs as [Hact Hacts].
  cbn [actions_part]. rewrite (IHa _ Hacts).
  unfold is_silent in Hact. unfold action_part.
  destruct (action_type.kind (action.type act)); try done.
  apply bool_decide_eq_true_1 in Hact. by rewrite decide_True.
Qed.

(** X5.  The loop over the actions of an event only appends to the text,
    and neither what it appends nor the units it hands to the unit
    compiler depend on the linker: the loop is the unit compiler applied
    to the units of the code actions, in the order of the actions, and
    the text so far followed by the text of the actions. *)
Theorem event_text_independent_of_linker fuel obj evt a acts st code :
  put_actions fuel obj evt a acts st code
  = '(us, text) ← actions_part fuel obj evt a acts;
    Done (compile_all st us, code +:+ text).
Proof. apply put_actions_part. Qed.

(** X6.  The object phase is the unit compiler applied to a sequence of
    units that the project alone determines: for each object in order,
    for each of its events in order, the units of the event's code
    actions and then the unit of the event, all with zero arguments and
    not as scripts. *)
Theorem object_phase_units fuel st :
  build_objects fuel st
  = us ← objects_units fuel (game.objects (source st));
    Done (compile_all st us).
Proof. apply build_objects_from_units. Qed.

(** X7.  An event without actions, or whose actions are all of kinds
    that write nothing (a normal action that executes nothing, a kind the
    synthesizer does not know), is still handed to the unit compiler,
    once and with the empty text: the context of the sink is the name of
    the event's unit afterwards.  Its function, with zero arguments, is
    added when the sink holds no error before and the empty text parses;
    with an error in the sink, or when the empty text does not parse,
    nothing reaches the code generator. *)
Theorem silent_event_compiles_empty_text fuel obj st evt :
  forallb is_silent (event.actions evt) = true →
  ∃ st',
    build_event fuel obj st evt = Done st'
    ∧ error_stream.context (errors st') = event_name obj evt
    ∧ (error_stream.count (errors st) = 0%nat →
       (getprogram "").2 = [] →
       compiler st'
       = compiler st
         ++ [add_function_call (getprogram "").1 (event_name obj evt) 0 false])
    ∧ ((0 < error_stream.count (errors st))%nat ∨ (getprogram "").2 ≠ [] →
       compiler st' = compiler st
       ∧ (0 < error_stream.count (errors st'))%nat).
Proof.
  intros Hs. rewrite build_event_units. unfold event_units.
  rewrite silent_actions_part by done. cbn [mbind outcome_bind app].
  eexists. split; [done|].
  change (compile_all st [event_unit obj evt ""])
    with (compile st (event_unit obj evt "")).
  destruct (compile_errors st (event_unit obj evt "")) as (_&Hctx&_).
  split; [exact Hctx|].
  destruct (compile_cases st (event_unit obj evt ""))
    as [(Hzero&Hlog&_)|(Hpos&Hlog&Hcount)]; cbn [Spec.text event_unit] in *.
  - split; [done|]. intros [Herr|Hparse]; [lia|].
    destruct (getprogram "").2; [done|cbn in Hzero; lia].
  - split.
    + intros Hclean Hparse. rewrite Hparse in Hpos. cbn in Hpos. lia.
    + intros _. split; [done|lia].
Qed.
End facts.

Lemma silent_event_compiles_empty_text_witness :
  (forallb is_silent (event.actions Toy.evt_step) = true
   ∧ error_stream.count (errors Toy.linker0) = 0%nat
   ∧ (getprogram "").2 = [])
  ∧ ∃ st',
      build_event 0 Toy.obj_ball Toy.linker0 Toy.evt_step = Done st'
      ∧ compiler st' = [add_function_call "" "obj_ball_3_0" 0 false].
Proof.
  split; [split_and!; reflexivity|].
  destruct (silent_event_compiles_empty_text 0 Toy.obj_ball Toy.linker0
              Toy.evt_step eq_refl) as (st' & Hevent & _ & Hadded & _).
  exists st'. split; [exact Hevent|exact (Hadded eq_refl eq_refl)].
Defined.

(** X8.  The name of an event's unit determines the object's name and the
    event's two ids: two events get the same unit name only when all
    three agree. *)
Theorem event_name_determines_event (o1 o2 : object.t) (e1 e2 : event.t) :
  event_name o1 e1 = event_name o2 e2 →
  object.name o1 = object.name o2
  ∧ event.main_id e1 = event.main_id e2
  ∧ event.sub_id e1 = event.sub_id e2.
Proof.
  unfold event_name. intros Heq.
  assert (∀ n m s : string,
    n +:+ "_" +:+ m +:+ "_" +:+ s = (n +:+ "_" +:+ m) +:+ "_" +:+ s)
    as Hshape.
  { intros. by rewrite !sapp_assoc. }
  rewrite !Hshape in Heq.
  apply sep_app_inj in Heq as [Heq Hs].
  apply sep_app_inj in Heq as [Ho Hm]. done.
Qed.

Lemma event_name_determines_event_witness :
  event_name Toy.obj_ball Toy.evt_step = event_name Toy.obj_ball Toy.evt_step
  ∧ event.main_id Toy.evt_step = event.main_id Toy.evt_step.
Proof.
  split; [reflexivity|].
  apply (event_name_determines_event Toy.obj_ball Toy.obj_ball
           Toy.evt_step Toy.evt_step eq_refl).
Defined.

(** X9.  The names of the two kinds of unit of the object phase overlap:
    the unit of the code action at index [a] of event [(m, s)] of object
    [O] has the name of the unit of event [(s, a)] of an object named
    [O_m]. *)
Theorem code_action_name_is_an_event_name (obj : object.t) (evt : event.t)
    (a : nat) :
  code_action_name obj evt a
  = event_name
      {| object.name := object.name obj +:+ "_" +:+ pretty (event.main_id evt);
         object.events := [] |}
      {| event.main_id := event.sub_id evt; event.sub_id := Z.of_nat a;
         event.actions := [] |}.
Proof. unfold code_action_name, event_name. cbn. by rewrite !sapp_assoc. Qed.

End SynthesisProperties.

(** ** The phases of the build *)

Module PhaseProperties.
Import Text TextFacts Linker Units UnitFacts PhaseFacts BuildFacts.

Section facts.
Context {node llvm_module : Type}.
Context `{!Compiler node, !Backend node llvm_module}.
Implicit Types st : Linker.t node llvm_module.

(** X10.  The library phase is the unit compiler applied, in the order of
    the descriptors, to the descriptors that execute code and to no
    other; such a unit is not a script, and it has one argument more
    than the descriptor declares when the descriptor is relative. *)
Theorem library_phase_units st :
  build_libraries st
  = compile_all st
      (map library_unit
         (filter (λ ty, action_type.exec ty = action_type.exec_code)
            (game.actions (source st))))
  ∧ ∀ ty : action_type.t,
      0 ≤ action_type.nargs ty < 2 ^ 31 - 1 →
      Spec.is_script (library_unit ty) = false
      ∧ Spec.args (library_unit ty)
        = action_type.nargs ty + (if action_type.relative ty then 1 else 0).
Proof.
  split; [apply build_libraries_units|].
  intros ty Hn. split; [done|]. cbn. unfold int_of_size_t.
  destruct (action_type.relative ty).
  - rewrite Z.mod_small by lia. lia.
  - rewrite Z.mod_small by lia. lia.
Qed.

(** X11.  The script phase registers the name of every script whatever
    the sink holds; when the sink holds an error at its start, that is
    all it does to the code generator: no script is compiled. *)
Theorem script_phase_with_errors st :
  (0 < error_stream.count (errors st))%nat →
  compiler (build_scripts st)
  = compiler st
    ++ map (λ s, register_script_call (script.name s))
         (game.scripts (source st)).
Proof.
  intros Hpos. rewrite build_scripts_units, compile_all_stuck.
  - by rewrite registered_state.
  - by rewrite registered_state.
Qed.
End facts.

Lemma script_phase_with_errors_witness :
  (0 < error_stream.count
         (errors (compile (Toy.linker_of Toy.forward_game ∅) Toy.bad_unit)))%nat
  ∧ compiler
      (build_scripts (compile (Toy.linker_of Toy.forward_game ∅) Toy.bad_unit))
    = [register_script_call "A"; register_script_call "B"].
Proof.
  assert (0 < error_stream.count
                (errors (compile (Toy.linker_of Toy.forward_game ∅)
                           Toy.bad_unit)))%nat as Hpos.
  { assert (error_stream.count
              (errors (compile (Toy.linker_of Toy.forward_game ∅)
                         Toy.bad_unit)) = 1%nat) as -> by reflexivity.
    lia. }
  split; [exact Hpos|].
  exact (script_phase_with_errors
           (compile (Toy.linker_of Toy.forward_game ∅) Toy.bad_unit) Hpos).
Defined.

End PhaseProperties.

(** ** The build as a whole *)

Module BuildProperties.
Import Text TextFacts Linker Units UnitFacts PhaseFacts BuildFacts.
Import Synthesis SinkProperties SynthesisProperties BuildStages.

Section facts.
Context {node llvm_module : Type}.
Context `{!Compiler node, !Backend node llvm_module}.
Implicit Types st : Linker.t node llvm_module.

Lemma build_stages fuel target debug st :
  build fuel target debug st
  = st3 ← build_objects fuel (before_objects st); backend target debug st3.
Proof. reflexivity. Qed.

Lemma extends_refl st : extends st st.
Proof.
  unfold extends. split_and!; [done..| |]; exists []; by rewrite app_nil_r.
Qed.

Lemma extends_trans st1 st2 st3 :
  extends st1 st2 → extends st2 st3 → extends st1 st3.
Proof.
  intros (?&?&?&[n1 Hn1]&[a1 Ha1]) (?&?&?&[n2 Hn2]&[a2 Ha2]).
  unfold extends. split_and!; [congruence..| |].
  - exists (n1 ++ n2). rewrite Hn2, Hn1. by rewrite <-app_assoc.
  - exists (a1 ++ a2). rewrite Ha2, Ha1. by rewrite <-app_assoc.
Qed.

Lemma compile_all_extends st us : extends st (compile_all st us).
Proof.
  destruct (compile_all_grows st us) as (?&?&?&?&?&added&?&?).
  destruct (compile_all_errors st us) as (new&?&?&?).
  unfold extends. split_and!; [done..| |]; by eexists.
Qed.

Lemma sink_extends f st :
  (∃ new, error_stream.errors (f (errors st))
          = error_stream.errors (errors st) ++ new) →
  extends st (with_errors f st).
Proof.
  intros Hnew. unfold extends. split_and!; [done..| |]; [done|].
  exists []. by rewrite app_nil_r.
Qed.

Lemma progress_extends pct label st :
  extends st (with_errors (error_stream.progress pct label) st).
Proof. apply sink_extends. exists []. by rewrite app_nil_r. Qed.

Lemma error_extends message st :
  extends st (with_errors (error_stream.error message) st).
Proof. apply sink_extends. by eexists. Qed.

Lemma with_file_extends path m st : extends st (with_file path m st).
Proof.
  unfold extends. split_and!; [done..| |]; exists []; by rewrite app_nil_r.
Qed.

Lemma registered_extends st ss : extends st (registered st ss).
Proof.
  rewrite registered_state. unfold extends.
  split_and!; [done..| |]; [|by eexists]. exists []. by rewrite app_nil_r.
Qed.

Lemma build_scripts_extends st : extends st (build_scripts st).
Proof.
  rewrite build_scripts_units.
  eapply extends_trans; [apply registered_extends|apply compile_all_extends].
Qed.

Lemma build_libraries_extends st : extends st (build_libraries st).
Proof. rewrite build_libraries_units. apply compile_all_extends. Qed.

Lemma before_objects_extends st : extends st (before_objects st).
Proof.
  unfold before_objects.
  eapply extends_trans; [apply progress_extends|].
  eapply extends_trans; [apply build_libraries_extends|].
  eapply extends_trans; [apply progress_extends|].
  eapply extends_trans; [apply build_scripts_extends|].
  apply progress_extends.
Qed.

Lemma build_objects_extends fuel st st' :
  build_objects fuel st = Done st' → extends st st'.
Proof.
  unfold build_objects. rewrite build_objects_from_units.
  destruct (objects_units fuel (game.objects (source st))); [|done..].
  intros [= <-]. apply compile_all_extends.
Qed.

Lemma link_extends target debug st b st' :
  link target debug st = Done (b, st') → extends st st'.
Proof.
  unfold link.
  destruct (load_module (objects_path st) (files st)) as [objects| |];
    [|done..].
  cbn [mbind outcome_bind].
  destruct (link_both (new_module "game") objects (runtime st))
    as [failed game].
  destruct (open_output target); intros [= <- <-]; destruct failed;
    repeat first
      [ apply extends_refl
      | apply with_file_extends
      | apply error_extends
      | (eapply extends_trans; [apply error_extends|]) ].
Qed.

Lemma backend_extends target debug st b st' :
  backend target debug st = Done (b, st') → extends st st'.
Proof.
  unfold backend. case_decide; [intros [= <- <-]; apply extends_refl|].
  destruct (verifyModule _); [intros [= <- <-]; apply error_extends|].
  destruct (open_output (objects_path st));
    [intros [= <- <-]; apply error_extends|].
  destruct (link target debug _) as [[r st4]| |] eqn:Hlink; [|done..].
  cbn [mbind outcome_bind]. intros [= <- <-].
  eapply extends_trans; [apply with_file_extends|].
  eapply extends_trans; [apply progress_extends|].
  by eapply link_extends.
Qed.

(** [link] finds the objects file that [build] has just written. *)
Lemma link_done target debug st objects :
  files st !! objects_path st = Some objects →
  ∃ b st', link target debug st = Done (b, st').
Proof.
  intros Hobjects. unfold link, load_module. rewrite Hobjects.
  cbn [of_option mbind outcome_bind].
  destruct (link_both _ _ _) as [failed game].
  destruct (open_output target); by do 2 eexists.
Qed.

Lemma backend_done target debug st :
  ∃ b st', backend target debug st = Done (b, st').
Proof.
  unfold backend. case_decide; [by do 2 eexists|].
  destruct (verifyModule _); [by do 2 eexists|].
  destruct (open_output (objects_path st)); [by do 2 eexists|].
  edestruct (link_done target debug) as (b & st' & ->).
  { cbn. apply lookup_insert_eq. }
  by do 2 eexists.
Qed.

Lemma backend_result target debug st b st' :
  backend target debug st = Done (b, st') →
  b = true ↔ error_stream.count (errors st') = 0%nat.
Proof.
  unfold backend. case_decide as Hc.
  - intros [= <- <-]. split; [done|lia].
  - destruct (verifyModule _).
    { intros [= <- <-]. split; [done|].
      unfold error_stream.count. cbn. rewrite length_app. cbn. lia. }
    destruct (open_output (objects_path st)).
    { intros [= <- <-]. split; [done|].
      unfold error_stream.count. cbn. rewrite length_app. cbn. lia. }
    destruct (link target debug _) as [[r st4]| |]; [|done..].
    cbn [mbind outcome_bind]. intros [= <- <-].
    apply bool_decide_eq_true.
Qed.

(** X12.  Whenever [build] returns, its result says whether the sink is
    empty at the end: [true] exactly when no error at all has been
    recorded.  And it does return for every renderable project, whatever
    the sink, the files and the tool chain: the objects file that [link]
    reads without a check is the one [build] has just written. *)
Theorem build_result_reflects_sink :
  (∀ fuel target debug st b st',
     build fuel target debug st = Done (b, st') →
     b = true ↔ error_stream.count (errors st') = 0%nat)
  ∧ (∀ fuel target debug st,
       Renderable.game_ok (source st) = true →
       ∃ b st', build (S fuel) target debug st = Done (b, st')).
Proof.
  split.
  - intros fuel target debug st b st'. rewrite build_stages.
    destruct (build_objects fuel (before_objects st)) as [st3| |]; [|done..].
    cbn [mbind outcome_bind]. apply backend_result.
  - intros fuel target debug st Hok. rewrite build_stages.
    destruct (before_objects_follows st) as (Hsrc&_&_).
    destruct (build_objects_done fuel (before_objects st)) as [st3 ->];
      [by rewrite Hsrc|].
    cbn [mbind outcome_bind]. apply backend_done.
Qed.

(** X13.  Through a build the output directory and the project stay the
    same, no recorded error is dropped or changed, and no call already
    made to the code generator is undone: the log of errors and the list
    of calls at the end begin with those at the start. *)
Theorem build_only_adds fuel target debug st b st' :
  build fuel target debug st = Done (b, st') → only_appends st st'.
Proof.
  rewrite build_stages.
  destruct (build_objects fuel (before_objects st)) as [st3| |] eqn:Hobj;
    [|done..].
  cbn [mbind outcome_bind]. intros Hback.
  assert (extends st st') as (Hout&Hsrc&_&Herr&Hcalls).
  { eapply extends_trans; [apply before_objects_extends|].
    eapply extends_trans; [by eapply build_objects_extends|].
    by eapply backend_extends. }
  by unfold only_appends.
Qed.
End facts.

Lemma build_result_reflects_sink_witness :
  Renderable.game_ok (source (Toy.linker_of Toy.forward_game ∅)) = true
  ∧ ∃ b st',
      build 1 "game.bc" true (Toy.linker_of Toy.forward_game ∅)
      = Done (b, st').
Proof.
  split; [reflexivity|].
  apply (proj2 build_result_reflects_sink 0%nat "game.bc" true
           (Toy.linker_of Toy.forward_game ∅)).
  reflexivity.
Defined.

Lemma build_only_adds_witness :
  ∃ b st',
    build 1 "game.bc" true (Toy.linker_of Toy.forward_game ∅) = Done (b, st')
    ∧ only_appends (Toy.linker_of Toy.forward_game ∅) st'.
Proof.
  destruct (build 1 "game.bc" true (Toy.linker_of Toy.forward_game ∅))
    as [[b st']| |] eqn:Hbuild.
  - exists b, st'. split; [reflexivity|].
    exact (build_only_adds 1 "game.bc" true
             (Toy.linker_of Toy.forward_game ∅) b st' Hbuild).
  - vm_compute in Hbuild. discriminate Hbuild.
  - vm_compute in Hbuild. discriminate Hbuild.
Defined.

End BuildProperties.

(** ** The backend stage and the link *)

Module BackendProperties.
Import Text TextFacts Linker Units UnitFacts PhaseFacts BuildFacts.
Import Synthesis SinkProperties SynthesisProperties BuildStages BuildProperties.

Section facts.
Context {node llvm_module : Type}.
Context `{!Compiler node, !Backend node llvm_module}.
Implicit Types st : Linker.t node llvm_module.






(** The one way in which the backend stage succeeds. *)
Lemma backend_success target debug st st' :
  backend target debug st = Done (true, st') →
  ∃ merged,
    error_stream.count (errors st) = 0%nat
    ∧ verifyModule (get_module (compiler st)) = None
    ∧ open_output (objects_path st) = None
    ∧ open_output target = None
    ∧ link_both (new_module "game") (objects_module debug st) (runtime st)
      = (false, merged)
    ∧ files st'
      = <[target := final_module debug merged]>
          (<[objects_path st := objects_module debug st]> (files st))
    ∧ compiler st' = compiler st
    ∧ error_stream.errors (errors st') = error_stream.errors (errors st).
Proof.
  unfold backend. case_decide as Hc; [done|].
  destruct (verifyModule _) eqn:Hverify; [done|].
  destruct (open_output (objects_path st)) eqn:Hopen; [done|].
  fold (objects_module debug st).
  unfold link, load_module. cbn [objects_path output with_errors with_file files].
  fold (objects_path st). rewrite lookup_insert_eq.
  cbn [of_option mbind outcome_bind runtime with_errors with_file].
  destruct (link_both (new_module "game") (objects_module debug st) (runtime st))
    as [failed merged].
  fold (final_module debug merged).
  destruct (open_output target) eqn:Htarget;
    cbn [mbind outcome_bind]; intros [= Hb <-].
  - apply bool_decide_eq_true_1 in Hb. revert Hb.
    destruct failed; unfold error_stream.count; cbn;
      rewrite ?length_app; cbn; lia.
  - apply bool_decide_eq_true_1 in Hb. destruct failed.
    + revert Hb. unfold error_stream.count. cbn. rewrite length_app. cbn. lia.
    + exists merged. split_and!; try done;
        unfold error_stream.count in *; lia.
Qed.


(** X15.  A build succeeds in one way only.  The three phases leave the
    sink empty; the module of the code generator passes verification; it
    is written, after the module passes unless in debug mode, to
    [objects.bc] in the output directory; merging it and then the runtime
    into a fresh module fails for neither; and the merged module is
    written, after the link-time passes unless in debug mode, to the
    target.  No other file is touched. *)
Theorem successful_build fuel target debug st st' :
  build fuel target debug st = Done (true, st') →
  ∃ st3 merged,
    build_objects fuel (before_objects st) = Done st3
    ∧ error_stream.count (errors st3) = 0%nat
    ∧ error_stream.count (errors st') = 0%nat
    ∧ verifyModule (get_module (compiler st3)) = None
    ∧ link_both (new_module "game") (objects_module debug st3) (runtime st)
      = (false, merged)
    ∧ compiler st' = compiler st3
    ∧ files st'
      = <[target := final_module debug merged]>
          (<[objects_path st := objects_module debug st3]> (files st)).
Proof.
  rewrite build_stages.
  destruct (build_objects fuel (before_objects st)) as [st3| |] eqn:Hobj;
    [|done..].
  cbn [mbind outcome_bind]. intros Hback.
  destruct (backend_success _ _ _ _ Hback)
    as (merged&Hc&Hv&_&_&Hmerge&Hfiles&Hcomp&Herr).
  destruct (build_objects_grows _ _ _ Hobj) as (_&Ho3&Hr3&Hf3&_).
  destruct (before_objects_extends st) as (Ho0&_&Hr0&_).
  destruct (before_objects_follows st) as (_&Hf0&_).
  assert (objects_path st3 = objects_path st) as Hpath.
  { unfold objects_path. congruence. }
  exists st3, merged. split_and!; try done.
  - unfold error_stream.count in *. by rewrite Herr.
  - by rewrite <-Hr0, <-Hr3.
  - rewrite Hfiles, Hpath. congruence.
Qed.

(** X16.  [link] reads the objects file without a check, so it is
    undefined when the file is not there.  When it is there, [link]
    returns, and what it returns says only whether the target could be
    opened: it leaves the files alone when it returns [false], and it
    never calls the code generator.  When both merges succeed and the
    target opens it records nothing and writes the merged module, after
    the link-time passes unless in debug mode. *)
Theorem link_outcome target debug st :
  (files st !! objects_path st = None → link target debug st = Undefined)
  ∧ (∀ objects,
       files st !! objects_path st = Some objects →
       ∃ b st',
         link target debug st = Done (b, st')
         ∧ (b = true ↔ open_output target = None)
         ∧ (b = false → files st' = files st)
         ∧ compiler st' = compiler st
         ∧ (∀ merged,
              link_both (new_module "game") objects (runtime st)
              = (false, merged) →
              open_output target = None →
              errors st' = errors st
              ∧ files st' = <[target := final_module debug merged]> (files st))).
Proof.
  split.
  - intros Hnone. unfold link, load_module. by rewrite Hnone.
  - intros objects Hobjects. unfold link, load_module. rewrite Hobjects.
    cbn [of_option mbind outcome_bind].
    destruct (link_both (new_module "game") objects (runtime st))
      as [failed game].
    fold (final_module debug game).
    destruct (open_output target) eqn:Htarget; destruct failed;
      eexists _, _; (split; [done|]); split_and!; try done.
    intros merged [= <-] _. done.
Qed.
End facts.


Lemma successful_build_witness :
  ∃ st',
    build 1 "game.bc" true (Toy.linker_of Toy.forward_game ∅)
    = Done (true, st')
    ∧ is_Some (files st' !! "game.bc").
Proof.
  destruct (build 1 "game.bc" true (Toy.linker_of Toy.forward_game ∅))
    as [[b st']| |] eqn:Hbuild.
  - assert (b = true) as ->.
    { vm_compute in Hbuild. by injection Hbuild as <- _. }
    exists st'. split; [reflexivity|].
    destruct (successful_build 1 "game.bc" true
                (Toy.linker_of Toy.forward_game ∅) st' Hbuild)
      as (st3 & merged & _ & _ & _ & _ & _ & _ & ->).
    rewrite lookup_insert_eq. by eexists.
  - vm_compute in Hbuild. discriminate Hbuild.
  - vm_compute in Hbuild. discriminate Hbuild.
Defined.

Lemma link_outcome_witness :
  files (Toy.linker_of Toy.no_game ∅)
    !! objects_path (Toy.linker_of Toy.no_game ∅) = None
  ∧ link "game.bc" false (Toy.linker_of Toy.no_game ∅) = Undefined.
Proof.
  split; [reflexivity|].
  apply (proj1 (link_outcome "game.bc" false (Toy.linker_of Toy.no_game ∅))).
  reflexivity.
Defined.

End BackendProperties.

(** ** More on scopes and arrays *)

Module RuntimeProperties.
Import Runtime RuntimeClaims.

Section facts.
Context {variant : Type}.
Variable default_var : var.t variant.
Implicit Types st : state variant.
Implicit Types s self other : scope_ptr.

Lemma deref_store_ne s s' sc st :
  s' ≠ s → deref s' (store s sc st) = deref s' st.
Proof.
  intros Hne. destruct s as [|address], s' as [|address']; cbn; try done.
  rewrite lookup_insert_ne; [done|]. intros ->. by apply Hne.
Qed.

Lemma store_same s sc st : deref s st = Done sc → store s sc st = st.
Proof.
  destruct s as [|address]; cbn.
  - intros [= <-]. by destruct st.
  - destruct (instances st !! address) as [sc'|] eqn:Hsc; [|done].
    intros [= <-]. rewrite insert_id by done. by destruct st.
Qed.

Lemma subscript_present name (sc : gmap string (var.t variant)) v :
  sc !! name = Some v → subscript default_var name sc = sc.
Proof. intros Hv. unfold subscript. by rewrite Hv. Qed.

(** X17.  A lookup that resolves touches one slot of one scope: it shows
    no error, every other scope is as before, and so is every other name
    of the scope it resolves to. *)
Theorem lookup_touches_one_slot self other id name st k s sc :
  int_of_double id = Some k →
  (k = -1 ∧ s = self) ∨ (k = -2 ∧ s = other) ∨ (k = -5 ∧ s = global_ptr) →
  deref s st = Done sc →
  ∃ st',
    lookup default_var self other id name st = Done (Some (s, name), st')
    ∧ shown st' = shown st
    ∧ (∀ s', s' ≠ s → deref s' st' = deref s' st)
    ∧ (∀ name', name' ≠ name →
         deref_var (s, name') st' = deref_var (s, name') st).
Proof.
  intros Hid Hk Hs. eexists. split; [by eapply lookup_resolved|].
  split_and!.
  - by destruct s.
  - intros s' Hne. by apply deref_store_ne.
  - intros name' Hne. unfold deref_var. cbn [fst snd].
    rewrite (deref_store s sc) by done. rewrite Hs.
    cbn [mbind outcome_bind]. by rewrite subscript_other.
Qed.

(** X18.  Looking up a name that is present changes nothing at all: the
    state after the call is the state before it, in whichever scope the
    selector resolves. *)
Theorem lookup_present_changes_nothing self other id name st k s sc v :
  int_of_double id = Some k →
  (k = -1 ∧ s = self) ∨ (k = -2 ∧ s = other) ∨ (k = -5 ∧ s = global_ptr) →
  deref s st = Done sc →
  sc !! name = Some v →
  lookup default_var self other id name st = Done (Some (s, name), st).
Proof.
  intros Hid Hk Hs Hv.
  rewrite (lookup_resolved default_var self other id name st k s sc)
    by done.
  by rewrite (subscript_present name sc v), store_same.
Qed.

(** X19.  With the global selector -5, and with every selector that the
    switch does not list, [lookup] uses neither [self] nor [other]: the
    result is the same whatever the two pointers are, null or not, and
    the call returns.  With the selector -1 and a [self] that points to
    no scope the call is undefined, as it is when the cast of the
    selector is.  (The selectors -3, -4 and -6 hand both pointers to
    [show_error] and are left out.) *)
Theorem lookup_reads_instances_on_demand :
  (∀ self other self' other' id name st k,
     int_of_double id = Some k →
     k ∉ [-1; -2; -3; -4; -6] →
     lookup default_var self other id name st
     = lookup default_var self' other' id name st
     ∧ ∃ r st',
         lookup default_var self other id name st = Done (r, st'))
  ∧ (∀ self other id name st,
       int_of_double id = Some (-1) →
       deref self st = Undefined →
       lookup default_var self other id name st = Undefined)
  ∧ (∀ self other id name st,
       int_of_double id = None →
       lookup default_var self other id name st = Undefined).
Proof.
  split_and!.
  - intros self other self' other' id name st k Hid Hk.
    rewrite !not_elem_of_cons in Hk.
    unfold lookup. rewrite Hid. cbn [of_option mbind outcome_bind].
    repeat (case_decide; try lia); try (split; [done|by do 2 eexists]).
  - intros self other id name st Hid Hself. unfold lookup. rewrite Hid.
    cbn [of_option mbind outcome_bind]. rewrite decide_True by done.
    by rewrite Hself.
  - intros self other id name st Hid. unfold lookup. by rewrite Hid.
Qed.

End facts.

Section arrays.
Context {variant : Type}.
Implicit Types st : state variant.

Lemma access_in_bounds (a : var_ptr) (x y : Z) st (v : var.t variant) p st' :
  deref_var a st = Done v →
  access a x y st = Done (Some p, st') →
  p = (a, x + y * var.x v) ∧ x < var.x v ∧ y < var.y v.
Proof.
  intros Hv. unfold access. rewrite Hv. cbn [mbind outcome_bind].
  repeat case_decide; try done. intros [= <- <-]. split; [done|lia].
Qed.

(** X21.  Two pairs of indices that [access] accepts for one array give
    the same cell only when they are the same pair: within the bounds,
    the position [x + y * X] determines [x] and [y]. *)
Theorem access_distinct_cells (a : var_ptr) (x1 y1 x2 y2 : Z) st
    (v : var.t variant) p st1 st2 :
  deref_var a st = Done v →
  0 ≤ x1 → 0 ≤ x2 →
  access a x1 y1 st = Done (Some p, st1) →
  access a x2 y2 st = Done (Some p, st2) →
  x1 = x2 ∧ y1 = y2.
Proof.
  intros Hv Hx1 Hx2 H1 H2.
  destruct (access_in_bounds _ _ _ _ _ _ _ Hv H1) as (-> & Hb1 & _).
  destruct (access_in_bounds _ _ _ _ _ _ _ Hv H2) as (Heq & Hb2 & _).
  injection Heq as Heq.
  assert (¬ y1 < y2) as Hlt by nia. assert (¬ y2 < y1) as Hgt by nia.
  assert (y1 = y2) as Hy by (clear -Hlt Hgt; lia).
  subst y2. split; [clear -Heq; lia|done].
Qed.

(** X22.  Every position of an array is reached: for an array whose
    x-extent [X] is not negative and an index [i] below [X * Y] the pair [(i mod X, i / X)] is within the bounds and [access]
    returns the cell at position [i].  An array with an extent of zero
    has no cell that [access] returns. *)
Theorem access_reaches_every_cell (a : var_ptr) st (v : var.t variant) :
  deref_var a st = Done v →
  0 ≤ var.x v →
  (∀ i, 0 ≤ i < var.x v * var.y v →
     access a (i `mod` var.x v) (i `div` var.x v) st = Done (Some (a, i), st))
  ∧ (var.x v = 0 ∨ var.y v = 0 →
     ∀ x y, 0 ≤ x → 0 ≤ y →
       access a x y st
       = Done (None, show_error "index out of bounds" true st)).
Proof.
  intros Hv Hnonneg. split.
  - intros i Hi.
    assert (0 < var.x v) as Hx.
    { destruct (decide (var.x v = 0)) as [Hzero|Hpos]; [|lia].
      rewrite Hzero in Hi. lia. }
    pose proof (Z.mod_pos_bound i (var.x v) Hx) as Hmod.
    assert (i `div` var.x v < var.y v) as Hdiv.
    { apply Z.div_lt_upper_bound; lia. }
    unfold access. rewrite Hv. cbn [mbind outcome_bind].
    rewrite decide_False by lia. rewrite decide_False by lia.
    pose proof (Z.div_mod i (var.x v) ltac:(lia)) as Hdm.
    replace (i `mod` var.x v + i `div` var.x v * var.x v) with i
      by (clear -Hdm; lia).
    done.
  - intros Hzero x y Hx Hy. unfold access. rewrite Hv.
    cbn [mbind outcome_bind]. repeat case_decide; try done. lia.
Qed.
End arrays.

Lemma lookup_touches_one_slot_witness :
  (int_of_double Toy.double_self = Some (-1)
   ∧ deref (instance_ptr 1) Toy.memory = Done ∅)
  ∧ ∃ st',
      lookup Toy.fresh (instance_ptr 1) (instance_ptr 2) Toy.double_self
        "hp" Toy.memory
      = Done (Some (instance_ptr 1, "hp"), st')
      ∧ deref global_ptr st' = deref global_ptr Toy.memory.
Proof.
  split; [split; reflexivity|].
  destruct (lookup_touches_one_slot Toy.fresh (instance_ptr 1)
              (instance_ptr 2) Toy.double_self "hp" Toy.memory (-1)
              (instance_ptr 1) ∅ eq_refl
              (or_introl (conj eq_refl eq_refl)) eq_refl)
    as (st' & Hlookup & _ & Hother & _).
  exists st'. split; [exact Hlookup|]. by apply Hother.
Defined.

Lemma lookup_present_changes_nothing_witness :
  (int_of_double Toy.double_global = Some (-5)
   ∧ Runtime.global Toy.memory !! "score" = Some Toy.grid)
  ∧ lookup Toy.fresh (instance_ptr 1) (instance_ptr 2) Toy.double_global
      "score" Toy.memory
    = Done (Some (global_ptr, "score"), Toy.memory).
Proof.
  split; [split; reflexivity|].
  apply (lookup_present_changes_nothing Toy.fresh (instance_ptr 1)
           (instance_ptr 2) Toy.double_global "score" Toy.memory (-5)
           global_ptr (Runtime.global Toy.memory) Toy.grid);
    [reflexivity|by right; right|reflexivity|reflexivity].
Defined.

Lemma lookup_reads_instances_on_demand_witness :
  ((int_of_double Toy.double_global = Some (-5)
    ∧ -5 ∉ [-1; -2; -3; -4; -6])
   ∧ lookup Toy.fresh (instance_ptr 7) (instance_ptr 8) Toy.double_global
       "score" Toy.memory
     = lookup Toy.fresh (instance_ptr 1) (instance_ptr 2) Toy.double_global
         "score" Toy.memory)
  ∧ ((int_of_double Toy.double_self = Some (-1)
      ∧ deref (instance_ptr 7) Toy.memory = Undefined)
     ∧ lookup Toy.fresh (instance_ptr 7) (instance_ptr 2) Toy.double_self
         "hp" Toy.memory
       = Undefined).
Proof.
  assert (-5 ∉ [-1; -2; -3; -4; -6]) as Hk.
  { rewrite !not_elem_of_cons. split_and!; [lia..|]. apply not_elem_of_nil. }
  split.
  - split; [split; [reflexivity|exact Hk]|].
    apply (proj1 (lookup_reads_instances_on_demand Toy.fresh)
             (instance_ptr 7) (instance_ptr 8) (instance_ptr 1)
             (instance_ptr 2) Toy.double_global "score" Toy.memory (-5)
             eq_refl Hk).
  - split; [split; reflexivity|].
    apply (proj1 (proj2 (lookup_reads_instances_on_demand Toy.fresh)));
      reflexivity.
Defined.


Lemma access_distinct_cells_witness :
  deref_var (global_ptr, "score") Toy.memory = Done Toy.grid
  ∧ (access (global_ptr, "score") 1 2 Toy.memory
     = Done (Some ((global_ptr, "score"), 5), Toy.memory))
  ∧ (1 = 1 ∧ 2 = 2).
Proof.
  split; [reflexivity|]. split; [reflexivity|].
  apply (access_distinct_cells (global_ptr, "score") 1 2 1 2 Toy.memory
           Toy.grid ((global_ptr, "score"), 5) Toy.memory Toy.memory);
    [reflexivity|lia|lia|reflexivity|reflexivity].
Defined.

Lemma access_reaches_every_cell_witness :
  deref_var (global_ptr, "score") Toy.memory = Done Toy.grid
  ∧ access (global_ptr, "score") (3 `mod` 2) (3 `div` 2) Toy.memory
    = Done (Some ((global_ptr, "score"), 3), Toy.memory).
Proof.
  split; [reflexivity|].
  assert (0 ≤ var.x Toy.grid) as Hnonneg by (cbn; lia).
  apply (proj1 (access_reaches_every_cell (global_ptr, "score") Toy.memory
                  Toy.grid eq_refl Hnonneg) 3).
  cbn. lia.
Defined.

End RuntimeProperties.

(** ** When the build returns *)

Module ReturnProperties.
Import Text TextFacts Render RenderFacts Linker Units UnitFacts PhaseFacts.
Import BuildFacts Synthesis SynthesisProperties BuildStages BuildProperties.
Import NormalActionClaims QuotedArguments.

Lemma argument_not_ok fuel arg :
  Renderable.argument_ok arg = false → render_argument fuel arg = Diverges.
Proof.
  unfold Renderable.argument_ok, render_argument.
  destruct (argument.kind arg); try done.
  - apply render_string_diverges.
  - intros Hok. apply orb_false_iff in Hok as [Hstart Hfree].
    rewrite Hstart. by apply render_string_diverges.
Qed.

Lemma render_all_not_ok fuel args r :
  forallb Renderable.argument_ok args = false →
  Spec.render_all fuel args ≠ Done r.
Proof.
  revert r. induction args as [|arg args IHa]; intros r; [done|].
  cbn [forallb Spec.render_all].
  destruct (Renderable.argument_ok arg) eqn:Hok.
  - cbn [andb]. intros Hrest.
    destruct (render_argument fuel arg) as [text| |]; [|done..].
    cbn [mbind outcome_bind].
    destruct (Spec.render_all fuel args) as [texts| |] eqn:Hr; [|done..].
    by destruct (IHa texts Hrest).
  - intros _. by rewrite (argument_not_ok fuel arg Hok).
Qed.

Lemma arg_val_missing act n :
  (length (action.args act) ≤ n)%nat → arg_val act n = Undefined.
Proof.
  intros Hn. unfold arg_val. by rewrite lookup_ge_None_2.
Qed.

Lemma action_part_not_ok fuel obj evt a act r :
  Renderable.action_ok act = false → action_part fuel obj evt a act ≠ Done r.
Proof.
  unfold Renderable.action_ok, action_part.
  destruct (action_type.kind (action.type act)); try done.
  - intros Hok. apply orb_false_iff in Hok as [Hexec Hargs].
    apply bool_decide_eq_false_1 in Hexec. rewrite decide_False by done.
    rewrite put_normal_shape.
    destruct (Spec.render_all fuel (action.args act)) as [texts| |] eqn:Hr;
      [|done..].
    by destruct (render_all_not_ok fuel _ texts Hargs).
  - intros Hok. apply bool_decide_eq_false_1 in Hok.
    rewrite arg_val_missing by lia. done.
  - intros Hok. apply bool_decide_eq_false_1 in Hok.
    destruct (arg_val act 0) as [v0| |] eqn:H0; [|done..].
    cbn [mbind outcome_bind]. rewrite arg_val_missing by lia. done.
  - intros Hok. apply bool_decide_eq_false_1 in Hok.
    rewrite arg_val_missing by lia. done.
Qed.

Lemma actions_part_not_ok fuel obj evt a acts r :
  forallb Renderable.action_ok acts = false →
  actions_part fuel obj evt a acts ≠ Done r.
Proof.
  revert a r. induction acts as [|act acts IHa]; intros a r; [done|].
  cbn [forallb actions_part].
  destruct (Renderable.action_ok act) eqn:Hok.
  - cbn [andb]. intros Hrest.
    destruct (action_part fuel obj evt a act) as [[us text]| |]; [|done..].
    cbn [mbind outcome_bind].
    destruct (actions_part fuel obj evt (S a) acts) as [[us' text']| |]
      eqn:Hr; [|done..].
    by destruct (IHa (S a) (us', text') Hrest).
  - intros _.
    destruct (action_part fuel obj evt a act) as [r'| |] eqn:Hr; [|done..].
    by destruct (action_part_not_ok fuel obj evt a act r' Hok).
Qed.

Lemma event_units_not_ok fuel obj evt r :
  Renderable.event_ok evt = false → event_units fuel obj evt ≠ Done r.
Proof.
  intros Hok. unfold event_units.
  destruct (actions_part fuel obj evt 0 (event.actions evt))
    as [r'| |] eqn:Hr; [|done..].
  by destruct (actions_part_not_ok fuel obj evt 0 _ r' Hok).
Qed.

Lemma events_units_not_ok fuel obj evts r :
  forallb Renderable.event_ok evts = false →
  events_units fuel obj evts ≠ Done r.
Proof.
  revert r. induction evts as [|evt evts IHe]; intros r; [done|].
  cbn [forallb events_units].
  destruct (Renderable.event_ok evt) eqn:Hok.
  - cbn [andb]. intros Hrest.
    destruct (event_units fuel obj evt) as [us| |]; [|done..].
    cbn [mbind outcome_bind].
    destruct (events_units fuel obj evts) as [us'| |] eqn:Hr; [|done..].
    by destruct (IHe us' Hrest).
  - intros _.
    destruct (event_units fuel obj evt) as [r'| |] eqn:Hr; [|done..].
    by destruct (event_units_not_ok fuel obj evt r' Hok).
Qed.

Lemma objects_units_not_ok fuel objs r :
  forallb Renderable.object_ok objs = false →
  objects_units fuel objs ≠ Done r.
Proof.
  revert r. induction objs as [|obj objs IHo]; intros r; [done|].
  cbn [forallb objects_units].
  destruct (Renderable.object_ok obj) eqn:Hok.
  - cbn [andb]. intros Hrest.
    destruct (events_units fuel obj (object.events obj)) as [us| |];
      [|done..].
    cbn [mbind outcome_bind].
    destruct (objects_units fuel objs) as [us'| |] eqn:Hr; [|done..].
    by destruct (IHo us' Hrest).
  - intros _.
    destruct (events_units fuel obj (object.events obj)) as [r'| |] eqn:Hr;
      [|done..].
    by destruct (events_units_not_ok fuel obj _ r' Hok).
Qed.

Section facts.
Context {node llvm_module : Type}.
Context `{!Compiler node, !Backend node llvm_module}.
Implicit Types st : Linker.t node llvm_module.

(** X23.  [build] returns for exactly the renderable projects.  A
    project with, anywhere in its objects, a repeat or code action
    without an argument, a variable action with fewer than two, or a
    normal action that executes something and has an argument to be
    quoted (of string kind, or of the either kind and not beginning with
    a quote) whose text holds a double quote, makes [build] run out of
    defined behaviour or never end, whatever the fuel; every other
    project gets a result. *)
Theorem build_returns_iff_renderable fuel target debug st :
  (∃ r, build (S fuel) target debug st = Done r)
  ↔ Renderable.game_ok (source st) = true.
Proof.
  destruct (before_objects_follows st) as (Hsrc&_&_). split.
  - intros [r Hbuild]. rewrite build_stages in Hbuild.
    destruct (Renderable.game_ok (source st)) eqn:Hok; [done|].
    unfold build_objects in Hbuild.
    rewrite build_objects_from_units, Hsrc in Hbuild.
    destruct (objects_units (S fuel) (game.objects (source st)))
      as [us| |] eqn:Hr; [|done..].
    by destruct (objects_units_not_ok (S fuel) _ us Hok).
  - intros Hok. rewrite build_stages.
    destruct (build_objects_done fuel (before_objects st)) as [st3 ->];
      [by rewrite Hsrc|].
    cbn [mbind outcome_bind].
    destruct (backend_done target debug st3) as (b & st' & ->).
    by eexists.
Qed.

(** X24.  A linker whose sink holds an error when [build] starts compiles
    nothing: for a renderable project [build] registers the script names,
    adds no function, returns [false] and writes no file. *)
Theorem build_with_stale_errors fuel target debug st :
  (0 < error_stream.count (errors st))%nat →
  Renderable.game_ok (source st) = true →
  ∃ st',
    build (S fuel) target debug st = Done (false, st')
    ∧ compiler st'
      = compiler st
        ++ map (λ s, register_script_call (script.name s))
             (game.scripts (source st))
    ∧ files st' = files st.
Proof.
  intros Hpos Hok.
  destruct (before_objects_follows st) as (Hsrc&Hfiles&Hcount).
  destruct (build_objects_done fuel (before_objects st)) as [st3 Hobj];
    [by rewrite Hsrc|].
  destruct (build_objects_grows _ _ _ Hobj) as (_&_&_&Hf3&Hmono&_).
  exists st3. split_and!.
  - apply build_stops_on_errors; [done|lia].
  - revert Hobj. unfold build_objects. rewrite build_objects_from_units.
    destruct (objects_units (S fuel) _) as [us| |]; [|done..].
    intros [= <-]. rewrite compile_all_stuck by lia.
    unfold before_objects. cbn [compiler with_errors].
    rewrite build_scripts_units, compile_all_stuck.
    + rewrite registered_state. cbn [compiler with_compiler with_errors source].
      rewrite build_libraries_units, compile_all_stuck by done.
      destruct (compile_all_grows
        (with_errors (error_stream.progress 20 "compiling libraries") st)
        (map library_unit
           (filter (λ ty, action_type.exec ty = action_type.exec_code)
              (game.actions
                 (source
                    (with_errors
                       (error_stream.progress 20 "compiling libraries")
                       st)))))) as (->&_).
      done.
    + rewrite registered_state. cbn [errors with_compiler with_errors].
      destruct (build_libraries_grows
        (with_errors (error_stream.progress 20 "compiling libraries") st))
        as (_&_&_&_&Hle&_).
      cbn in Hle. unfold error_stream.count in *. cbn. lia.
  - congruence.
Qed.
End facts.

(** X25.  A normal action that has an argument, or whose type declares
    no relative argument, is written as: [with (target)] unless the
    target is self; [if (] for a question; [!] when inverted; the callee;
    the arguments and the relative argument, if declared, joined by
    commas between parentheses; [)] for a question; and a line end. *)
Theorem normal_action_text fuel act code :
  action.args act ≠ [] ∨ action_type.relative (action.type act) = false →
  put_normal fuel act code
  = texts ← Spec.render_all fuel (action.args act);
    Done (code +:+ Spec.normal_text act texts +:+ nl).
Proof. apply put_normal_spec. Qed.

Lemma build_returns_iff_renderable_witness :
  Renderable.game_ok
    (source (Toy.linker_of Sample2.quoting_game ∅)) = false
  ∧ ¬ ∃ r, build 100 "game.bc" false (Toy.linker_of Sample2.quoting_game ∅)
           = Done r.
Proof.
  split; [reflexivity|].
  intros Hr.
  apply (build_returns_iff_renderable 99 "game.bc" false
           (Toy.linker_of Sample2.quoting_game ∅)) in Hr.
  discriminate Hr.
Defined.

Lemma build_with_stale_errors_witness :
  ((0 < error_stream.count
          (errors (compile (Toy.linker_of Toy.forward_game ∅) Toy.bad_unit)))%nat
   ∧ Renderable.game_ok
       (source (compile (Toy.linker_of Toy.forward_game ∅) Toy.bad_unit))
     = true)
  ∧ ∃ st',
      build 1 "game.bc" false
        (compile (Toy.linker_of Toy.forward_game ∅) Toy.bad_unit)
      = Done (false, st')
      ∧ compiler st' = [register_script_call "A"; register_script_call "B"].
Proof.
  assert (0 < error_stream.count
                (errors (compile (Toy.linker_of Toy.forward_game ∅)
                           Toy.bad_unit)))%nat as Hpos.
  { assert (error_stream.count
              (errors (compile (Toy.linker_of Toy.forward_game ∅)
                         Toy.bad_unit)) = 1%nat) as -> by reflexivity.
    lia. }
  split; [split; [exact Hpos|reflexivity]|].
  destruct (build_with_stale_errors 0 "game.bc" false
              (compile (Toy.linker_of Toy.forward_game ∅) Toy.bad_unit)
              Hpos eq_refl) as (st' & Hbuild & Hcompiler & _).
  exists st'. split; [exact Hbuild|exact Hcompiler].
Defined.

Lemma normal_action_text_witness :
  action.args Sample2.act_ask ≠ []
  ∧ put_normal 0 Sample2.act_ask ""
    = Done ("with (-2)if (!place_free(x, y + 1, 1))" +:+ nl).
Proof.
  split; [discriminate|].
  rewrite (normal_action_text 0 Sample2.act_ask "");
    [reflexivity|left; discriminate].
Defined.

End ReturnProperties.
